(** * bnb-arb-probe: route evaluation and profitability scoring

    A shallow embedding of [scan-probe.js].  BigInt values are [Z]; the
    BigInt operator [/] truncates toward zero and is [Z.quot].  JavaScript
    Numbers that hold integers are modelled by [JsNumber], with the IEEE-754
    binary64 rounding of [Number(bigint)] and of Number arithmetic written
    out.  A JavaScript string is a [string] whose characters stand for the
    code units that [replaceAll], [slice], [length] and [join] work on. *)

From stdpp Require Import gmap strings list fin_maps sorting.
From Stdlib Require Import ZArith Lia Ascii DecimalString.
From Stdlib Require DecimalPos DecimalZ.

Local Open Scope Z_scope.

(* ------------------------------------------------------------------ *)
(** ** JavaScript Numbers holding integers *)

Inductive JsNumber : Type :=
  | JInt (z : Z)          (* a finite double whose value is the integer z *)
  | JInf (negative : bool)
  | JNaN.

(** Round a non-negative integer to 53 significant bits, ties to even. *)
Definition roundMantissa (a : Z) : Z :=
  let e := Z.log2 a - 52 in
  if e <=? 0 then a
  else
    let q := Z.shiftr a e in
    let r := a - Z.shiftl q e in
    let half := Z.shiftl 1 (e - 1) in
    let q' := if (half <? r) || ((r =? half) && Z.odd q) then q + 1 else q in
    Z.shiftl q' e.

(** The Number value for a mathematical integer: nearest double, ties to
    even; a magnitude that rounds to 2^1024 becomes an infinity. *)
Definition toDouble (z : Z) : JsNumber :=
  let m := roundMantissa (Z.abs z) in
  if 2 ^ 1024 <=? m then JInf (z <? 0) else JInt (Z.sgn z * m).

(** [Number(b)] for a BigInt [b]. *)
Definition Number_of_BigInt (b : Z) : JsNumber := toDouble b.

(** [BigInt(n)] for a Number [n]: a RangeError ([None]) unless [n] is a
    finite integer. *)
Definition BigInt_of_Number (n : JsNumber) : option Z :=
  match n with
  | JInt z => Some z
  | _ => None
  end.

Definition jsAdd (a b : JsNumber) : JsNumber :=
  match a, b with
  | JNaN, _ | _, JNaN => JNaN
  | JInt x, JInt y => toDouble (x + y)
  | JInf s, JInt _ | JInt _, JInf s => JInf s
  | JInf s, JInf t => if Bool.eqb s t then JInf s else JNaN
  end.

Definition jsMul (a b : JsNumber) : JsNumber :=
  match a, b with
  | JNaN, _ | _, JNaN => JNaN
  | JInt x, JInt y => toDouble (x * y)
  | JInf s, JInt y | JInt y, JInf s =>
      if y =? 0 then JNaN else JInf (xorb s (y <? 0))
  | JInf s, JInf t => JInf (xorb s t)
  end.

(* ------------------------------------------------------------------ *)
(** ** Helpers *)

(** [safePctBps(pnl, input)] *)
Definition safePctBps (pnl input : Z) : JsNumber :=
  if input =? 0 then JInt 0
  else Number_of_BigInt (Z.quot (pnl * 10000) input).

(* ------------------------------------------------------------------ *)
(** ** Configuration *)

(** [cfg.gasEstimates]: JSON numbers.  The configuration is read as
    validated: the gas estimates and the flash-loan fee are integers (a
    fractional value would make [BigInt(...)] throw), the fee tiers are
    uint24 values, the addresses are well formed. *)
Record GasEstimates : Type := {
  v2Swap : Z;
  v3Swap : Z;
  wombatSwap : Z
}.

Record Token : Type := { addr : string; dec : Z }.

Record Tokens : Type := {
  WBNB : Token; USDT : Token; USDC : Token; BUSD : Token
}.

Record Config : Type := {
  gasEstimates : GasEstimates;
  flashloanFeeBps : Z;
  cfgTokens : Tokens;
  v3FeeTier_USDT_WBNB : Z;      (* cfg.v3FeeTiers["USDT/WBNB"] *)
  v3FeeTier_WBNB_USDT : Z;      (* cfg.v3FeeTiers["WBNB/USDT"] *)
  cfgSizesWBNB : option (list string)
}.

(* ------------------------------------------------------------------ *)
(** ** Gas and fees *)

(** [estimateGasUnitsForRoute(routeType, cfg)]: Number arithmetic. *)
Definition estimateGasUnitsForRoute (routeType : string) (cfg : Config) : JsNumber :=
  let g := gasEstimates cfg in
  if String.eqb routeType "V2→V3" || String.eqb routeType "V3→V2" then
    jsAdd (JInt (v2Swap g)) (JInt (v3Swap g))
  else if String.eqb routeType "TRI" then
    jsMul (JInt (v2Swap g)) (JInt 3)
  else if String.eqb routeType "TRI_WOMBAT_A" || String.eqb routeType "TRI_WOMBAT_B" then
    jsAdd (jsMul (JInt (v2Swap g)) (JInt 2)) (JInt (wombatSwap g))
  else
    jsMul (JInt (v2Swap g)) (JInt 2).

(** [flashloanFeeInWBNB(amountInWBNB, cfg)] *)
Definition flashloanFeeInWBNB (amountInWBNB : Z) (cfg : Config) : option Z :=
  match BigInt_of_Number (JInt (flashloanFeeBps cfg)) with
  | Some bps => Some (Z.quot (amountInWBNB * bps) 10000)
  | None => None
  end.

(** [gasCostInWBNB(gasPriceWei, gasUnits)] *)
Definition gasCostInWBNB (gasPriceWei : Z) (gasUnits : JsNumber) : option Z :=
  match BigInt_of_Number gasUnits with
  | Some u => Some (gasPriceWei * u)
  | None => None
  end.

(* ------------------------------------------------------------------ *)
(** ** Errors, the chain and the world *)

(** A thrown value: an [Error] with its [message], and the [reason] that
    ethers attaches to a failed call when it has one. *)
Record JsErr : Type := { reason : option string; message : string }.

(** [new Error(msg)] *)
Definition mkError (msg : string) : JsErr := {| reason := None; message := msg |}.

(** [e.reason || e.message]: an absent or empty reason is falsy. *)
Definition reasonOrMessage (e : JsErr) : string :=
  match reason e with
  | Some r => if String.eqb r "" then message e else r
  | None => message e
  end.

(** What [router.getAmountsOut] resolves to: a [uint256[]] with one amount
    per token of the path, never empty. *)
Record Amounts : Type := { firstAmount : Z; restAmounts : list Z }.

(** [amounts[amounts.length - 1]] *)
Definition lastAmount (a : Amounts) : Z := List.last (restAmounts a) (firstAmount a).

(** The shapes a quoter call resolves to: a bare bigint, a result tuple
    whose first component is [amountOut], or a record with [amountOut]. *)
Inductive QuoterOut : Type :=
  | OutBigint (amountOut : Z)
  | OutArray (amountOut : Z) (rest : list Z)
  | OutNamed (amountOut : Z).

(** The normalisation written after both quoter calls. *)
Definition quoterAmount (out : QuoterOut) : Z :=
  match out with
  | OutBigint z => z
  | OutArray z _ => z
  | OutNamed z => z
  end.

(** The read-only calls the probe issues ([blockTag: "pending"]). *)
Inductive Call : Type :=
  | GetAmountsOut (amountIn : Z) (path : list string)
  | QuoteExactInputSingle (tokenIn tokenOut : string) (fee : Z) (amountIn : Z)
  | QuoteExactInput (tokenIn : string) (fee : Z) (tokenOut : string) (amountIn : Z)
  | QuotePotentialSwap (fromToken toToken : string) (fromAmount : Z).

(** The chain as seen through the provider.  The answer to a call may
    depend on how many calls were issued before it: quotes are taken
    against pending state and may change between two legs. *)
Record Chain : Type := {
  getAmountsOut : nat -> Z -> list string -> JsErr + Amounts;
  quoteExactInputSingle : nat -> string -> string -> Z -> Z -> JsErr + QuoterOut;
  quoteExactInput : nat -> string -> Z -> string -> Z -> JsErr + QuoterOut;
  quotePotentialSwap : nat -> string -> string -> Z -> JsErr + (Z * Z)
}.

(** What the probe scores for a successful route. *)
Record Scored : Type := {
  sRouteType : string;
  sSize : string;
  sLegs : string;
  sIn : Z;
  sOut : Z;
  sPnl : Z;
  sBps : JsNumber;
  sGasWBNB : Z;
  sFlashFee : Z;
  sNetPnl : Z;
  sNote : string
}.

(** One [fs.appendFileSync] on the CSV file, tagged by the statement of
    [appendCsvRow] that issued it. *)
Inductive Write : Type :=
  | WHeader (line : string)
  | WRow (line : string).

Definition writeText (w : Write) : string :=
  match w with WHeader s => s | WRow s => s end.

(** What a cycle prints. *)
Inductive Report : Type :=
  | Top10 (ranked : list Scored)
  | NoSuccessfulQuotes.

Record World : Type := {
  trace : list Call;             (* calls issued so far, oldest first *)
  clock : nat;                   (* readings of the clock so far *)
  csvFile : option string;       (* probe_ops.csv: None when it does not exist *)
  writes : list Write;           (* appends made by this process, oldest first *)
  console : list Report
}.

Definition withTrace (t : list Call) (w : World) : World :=
  {| trace := t; clock := clock w; csvFile := csvFile w;
     writes := writes w; console := console w |}.

Definition withClock (c : nat) (w : World) : World :=
  {| trace := trace w; clock := c; csvFile := csvFile w;
     writes := writes w; console := console w |}.

Definition withCsv (f : option string) (ws : list Write) (w : World) : World :=
  {| trace := trace w; clock := clock w; csvFile := f;
     writes := ws; console := console w |}.

Definition withConsole (c : list Report) (w : World) : World :=
  {| trace := trace w; clock := clock w; csvFile := csvFile w;
     writes := writes w; console := c |}.

(* ------------------------------------------------------------------ *)
(** ** Computations: state over the world, with exceptions *)

Definition M (A : Type) : Type := World -> (JsErr + A) * World.

Definition ret {A} (a : A) : M A := fun w => (inr a, w).

Definition throw {A} (e : JsErr) : M A := fun w => (inl e, w).

Definition bind {A B} (m : M A) (k : A -> M B) : M B :=
  fun w =>
    match m w with
    | (inr a, w') => k a w'
    | (inl e, w') => (inl e, w')
    end.

(** [try { m } catch (e) { h e }] *)
Definition tryCatch {A} (m : M A) (h : JsErr -> M A) : M A :=
  fun w =>
    match m w with
    | (inl e, w') => h e w'
    | r => r
    end.

Notation "'let!' x ':=' m 'in' k" := (bind m (fun x => k))
  (at level 10, x name, m at level 100, k at level 200).

(** Await a contract call: it is logged, and the chain answers. *)
Definition rpc {A} (c : Call) (answer : nat -> JsErr + A) : M A :=
  fun w => (answer (length (trace w)), withTrace (trace w ++ [c]) w).

(* ------------------------------------------------------------------ *)
(** ** Quote adapters *)

Section Probe.

Variable chain : Chain.

(** [quoteV2({ router, path, amountIn })] *)
Definition quoteV2 (path : list string) (amountIn : Z) : M Z :=
  tryCatch
    (let! amounts := rpc (GetAmountsOut amountIn path)
                         (fun n => getAmountsOut chain n amountIn path) in
     ret (lastAmount amounts))
    (fun e => throw (mkError ("V2 quote failed: " +:+ reasonOrMessage e))).

(** [quoteV3Single({ quoter, tokenIn, tokenOut, fee, amountIn })].  The
    packed path of the fallback is kept as its three components: the
    addresses and the uint24 fee tier come from the configuration, and
    packing them does not fail. *)
Definition quoteV3Single (tokenIn tokenOut : string) (fee : Z) (amountIn : Z) : M Z :=
  tryCatch
    (let! out := rpc (QuoteExactInputSingle tokenIn tokenOut fee amountIn)
                     (fun n => quoteExactInputSingle chain n tokenIn tokenOut fee amountIn) in
     ret (quoterAmount out))
    (fun e1 =>
       tryCatch
         (let! out2 := rpc (QuoteExactInput tokenIn fee tokenOut amountIn)
                           (fun n => quoteExactInput chain n tokenIn fee tokenOut amountIn) in
          ret (quoterAmount out2))
         (fun e2 =>
            throw (mkError ("V3 quote failed: " +:+ reasonOrMessage e2
                            +:+ " (fallback after: " +:+ reasonOrMessage e1 +:+ ")")))).

(** [quoteWombat({ pool, from, to, amountIn })] *)
Definition quoteWombat (from to : string) (amountIn : Z) : M Z :=
  tryCatch
    (let! res := rpc (QuotePotentialSwap from to amountIn)
                     (fun n => quotePotentialSwap chain n from to amountIn) in
     ret (fst res))
    (fun e => throw (mkError ("Wombat quote failed: " +:+ reasonOrMessage e))).

(* ------------------------------------------------------------------ *)
(** ** Route evaluators *)

Inductive RouteOutcome : Type :=
  | Success (routeType legs : string) (amountIn amountOut : Z)
  | Failure (error routeType : string).

(** [r.routeType], of what an evaluator resolved to. *)
Definition outcomeRouteType (r : JsErr + RouteOutcome) : JsErr + string :=
  match r with
  | inr (Success t _ _ _) => inr t
  | inr (Failure _ t) => inr t
  | inl e => inl e
  end.

Definition crossRouteType (dir : string) : string :=
  if String.eqb dir "V2->V3" then "V2→V3" else "V3→V2".

(** [evalCrossVersion({ sizeInWBNB, cfg, ctx, dir })] *)
Definition evalCrossVersion (sizeInWBNB : Z) (cfg : Config) (dir : string)
  : M RouteOutcome :=
  let wbnb := addr (WBNB (cfgTokens cfg)) in
  let usdt := addr (USDT (cfgTokens cfg)) in
  tryCatch
    (let! finalOut :=
       (if String.eqb dir "V2->V3" then
          let! midOut := quoteV2 [wbnb; usdt] sizeInWBNB in
          quoteV3Single usdt wbnb (v3FeeTier_USDT_WBNB cfg) midOut
        else
          let! midOut := quoteV3Single wbnb usdt (v3FeeTier_WBNB_USDT cfg) sizeInWBNB in
          quoteV2 [usdt; wbnb] midOut) in
     ret (Success (crossRouteType dir) (dir +:+ ":WBNB->USDT->WBNB")
                  sizeInWBNB finalOut))
    (fun e => ret (Failure (message e) (crossRouteType dir))).

(** [evalTriangleV2({ sizeInWBNB, ctx })]: one call with a 4-token path. *)
Definition evalTriangleV2 (sizeInWBNB : Z) (cfg : Config) : M RouteOutcome :=
  let t := cfgTokens cfg in
  let path := [addr (WBNB t); addr (USDT t); addr (BUSD t); addr (WBNB t)] in
  tryCatch
    (let! out := quoteV2 path sizeInWBNB in
     ret (Success "TRI" "TRI_V2:WBNB->USDT->BUSD->WBNB" sizeInWBNB out))
    (fun e => ret (Failure (message e) "TRI")).

Definition wombatRouteType (variant : string) : string :=
  if String.eqb variant "A" then "TRI_WOMBAT_A" else "TRI_WOMBAT_B".

(** [evalTriangleWombat({ sizeInWBNB, ctx, variant })] *)
Definition evalTriangleWombat (sizeInWBNB : Z) (cfg : Config) (variant : string)
  : M RouteOutcome :=
  let t := cfgTokens cfg in
  tryCatch
    (if String.eqb variant "A" then
       let! leg1Out := quoteV2 [addr (WBNB t); addr (USDT t)] sizeInWBNB in
       let! leg2Out := quoteWombat (addr (USDT t)) (addr (USDC t)) leg1Out in
       let! finalOut := quoteV2 [addr (USDC t); addr (WBNB t)] leg2Out in
       ret (Success "TRI_WOMBAT_A"
              "TRI_WOMBAT_A:WBNB->USDT (V2)->USDC (Wombat)->WBNB (V2)"
              sizeInWBNB finalOut)
     else
       let! leg1Out := quoteV2 [addr (WBNB t); addr (USDC t)] sizeInWBNB in
       let! leg2Out := quoteWombat (addr (USDC t)) (addr (USDT t)) leg1Out in
       let! finalOut := quoteV2 [addr (USDT t); addr (WBNB t)] leg2Out in
       ret (Success "TRI_WOMBAT_B"
              "TRI_WOMBAT_B:WBNB->USDC (V2)->USDT (Wombat)->WBNB (V2)"
              sizeInWBNB finalOut))
    (fun e => ret (Failure (message e) (wombatRouteType variant))).

(* ------------------------------------------------------------------ *)
(** ** The CSV sink *)

(** What the run time supplies: the clock behind [nowIso()], indexed by
    the number of earlier readings; [ethers.parseUnits], which throws on a
    malformed decimal string; and [Number.prototype.toString]. *)
Record Runtime : Type := {
  isoTime : nat -> string;
  parseUnits : string -> Z -> JsErr + Z;
  numberToString : JsNumber -> string
}.

Variable rt : Runtime.

(** [nowIso()] *)
Definition nowIso : M string :=
  fun w => (inr (isoTime rt (clock w)), withClock (S (clock w)) w).

(** [BigInt.prototype.toString()] *)
Definition bigintToString (z : Z) : string := NilZero.string_of_int (Z.to_int z).

(** [fs.appendFileSync(csvPath, text)]: creates the file when missing. *)
Definition appendFileSync (wr : Write) : M unit :=
  fun w =>
    (inr tt,
     withCsv (Some (default "" (csvFile w) +:+ writeText wr)) (writes w ++ [wr]) w).

(** [fs.existsSync(csvPath)] *)
Definition existsSync : M bool :=
  fun w => (inr (bool_decide (is_Some (csvFile w))), w).

(** [headers.map(h => row[h]).join(",")]: a missing key joins as "". *)
Definition joinFields (headers : list string) (row : gmap string string) : string :=
  String.concat "," (map (fun h => default "" (row !! h)) headers).

Definition newline : string := String (Ascii.ascii_of_nat 10) "".

(** [appendCsvRow(csvPath, headers, row)] *)
Definition appendCsvRow (headers : list string) (row : gmap string string) : M unit :=
  let! exists_ := existsSync in
  let line := joinFields headers row +:+ newline in
  let! _ := (if negb exists_
             then appendFileSync (WHeader (String.concat "," headers +:+ newline))
             else ret tt) in
  appendFileSync (WRow line).

Definition CSV_HEADERS : list string :=
  ["timestamp"; "routeType"; "size"; "legs"; "in"; "out"; "pnl"; "bps";
   "gasCostWBNB"; "flashFeeWBNB"; "netPnl"; "note"].

(* ------------------------------------------------------------------ *)
(** ** Scoring and persisting one attempt *)

(** [s.replaceAll(from, to)] for one-character [from] and [to]. *)
Fixpoint replaceAll (from to : ascii) (s : string) : string :=
  match s with
  | EmptyString => EmptyString
  | String c s' => String (if Ascii.eqb c from then to else c) (replaceAll from to s')
  end.

(** [s.slice(0, n)] *)
Definition slice0 (n : nat) (s : string) : string := String.substring 0 n s.

(** The three places of [main] that handle an outcome; they differ in the
    prefix of the failure note only. *)
Inductive Block : Type := CrossBlock | TriangleBlock | WombatBlock.

Definition errPrefix (b : Block) : string :=
  match b with
  | CrossBlock => "ERR 1one:"
  | TriangleBlock => "ERR 2two:"
  | WombatBlock => "ERR 3three:"
  end.

(** [`ERR ...:${r.error?.replaceAll(",", ";")?.slice(0, 160)}`] *)
Definition failureNote (b : Block) (error : string) : string :=
  errPrefix b +:+ slice0 160 (replaceAll "," ";" error).

(** The scoring of a successful outcome; [None] when a [BigInt(...)]
    conversion throws. *)
Definition score (cfg : Config) (gasPriceWei : Z) (sz : string) (sizeIn : Z)
    (routeType legs : string) (rIn rOut : Z) : option Scored :=
  let gasUnits := estimateGasUnitsForRoute routeType cfg in
  match gasCostInWBNB gasPriceWei gasUnits with
  | None => None
  | Some gasWBNB =>
      match flashloanFeeInWBNB sizeIn cfg with
      | None => None
      | Some flashFee =>
          let pnl := rOut - rIn in
          let net := pnl - gasWBNB - flashFee in
          let bps := safePctBps pnl rIn in
          Some {| sRouteType := routeType; sSize := sz; sLegs := legs;
                  sIn := rIn; sOut := rOut; sPnl := pnl; sBps := bps;
                  sGasWBNB := gasWBNB; sFlashFee := flashFee;
                  sNetPnl := net; sNote := "" |}
      end
  end.

Definition rangeError : JsErr :=
  mkError "The number cannot be converted to a BigInt because it is not an integer".

Definition successRow (ts : string) (s : Scored) : gmap string string :=
  list_to_map
    [("timestamp", ts); ("routeType", sRouteType s); ("size", sSize s);
     ("legs", sLegs s); ("in", bigintToString (sIn s));
     ("out", bigintToString (sOut s)); ("pnl", bigintToString (sPnl s));
     ("bps", numberToString rt (sBps s));
     ("gasCostWBNB", bigintToString (sGasWBNB s));
     ("flashFeeWBNB", bigintToString (sFlashFee s));
     ("netPnl", bigintToString (sNetPnl s)); ("note", "")].

Definition failureRow (b : Block) (ts routeType sz error : string)
  : gmap string string :=
  list_to_map
    [("timestamp", ts); ("routeType", routeType); ("size", sz);
     ("legs", ""); ("in", "0"); ("out", "0"); ("pnl", "0"); ("bps", "0");
     ("gasCostWBNB", "0"); ("flashFeeWBNB", "0"); ("netPnl", "0");
     ("note", failureNote b error)].

(** The [if (r.ok) { ... } else { ... }] of [main]: score, push on the
    batch and persist, or persist the failure. *)
Definition recordOutcome (b : Block) (cfg : Config) (gasPriceWei : Z)
    (sz : string) (sizeIn : Z) (r : RouteOutcome) (batch : list Scored)
  : M (list Scored) :=
  match r with
  | Success routeType legs rIn rOut =>
      match score cfg gasPriceWei sz sizeIn routeType legs rIn rOut with
      | None => throw rangeError
      | Some s =>
          let! ts := nowIso in
          let! _ := appendCsvRow CSV_HEADERS (successRow ts s) in
          ret (batch ++ [s])
      end
  | Failure error routeType =>
      let! ts := nowIso in
      let! _ := appendCsvRow CSV_HEADERS (failureRow b ts routeType sz error) in
      ret batch
  end.

(* ------------------------------------------------------------------ *)
(** ** Ranking *)

(** The comparator of the ranking. *)
Definition byPnlDesc (a b : Scored) : Z :=
  if sPnl b <? sPnl a then -1 else if sPnl a <? sPnl b then 1 else 0.

(** [Array.prototype.sort(cmp)] is a stable sort; every stable sort gives
    the same array for this comparator, written here by insertion. *)
Fixpoint insertBy {A} (cmp : A -> A -> Z) (x : A) (l : list A) : list A :=
  match l with
  | [] => [x]
  | y :: l' => if 0 <? cmp x y then y :: insertBy cmp x l' else x :: y :: l'
  end.

Fixpoint sortBy {A} (cmp : A -> A -> Z) (l : list A) : list A :=
  match l with
  | [] => []
  | x :: l' => insertBy cmp x (sortBy cmp l')
  end.

(** [batchResults.filter(r => r && typeof r.pnl === "bigint")
       .sort(...).slice(0, 10)]: every entry of the batch is an object
    whose [pnl] is a bigint, so the filter keeps all of them. *)
Definition rank (batch : list Scored) : list Scored :=
  take 10 (sortBy byPnlDesc (filter (fun _ => True) batch)).

(* ------------------------------------------------------------------ *)
(** ** One polling cycle and the poll loop *)

Fixpoint forEach {A S} (l : list A) (body : A -> S -> M S) (s : S) : M S :=
  match l with
  | [] => ret s
  | a :: l' => let! s' := body a s in forEach l' body s'
  end.

(** [cfg.sizesWBNB?.length ? cfg.sizesWBNB : [...]] *)
Definition sizesWBNB (cfg : Config) : list string :=
  match cfgSizesWBNB cfg with
  | Some (sz :: l) => sz :: l
  | _ => ["0.01"; "0.02"; "0.05"; "0.1"]
  end.

(** The body of [for (const sz of sizesWBNB)]. *)
Definition probeSize (cfg : Config) (gasPriceWei : Z) (sz : string)
    (batch : list Scored) : M (list Scored) :=
  match parseUnits rt sz (dec (WBNB (cfgTokens cfg))) with
  | inl e => throw e
  | inr sizeIn =>
      let! batch1 :=
        forEach ["V2->V3"; "V3->V2"]
          (fun dir b =>
             let! r := evalCrossVersion sizeIn cfg dir in
             recordOutcome CrossBlock cfg gasPriceWei sz sizeIn r b) batch in
      let! r2 := evalTriangleV2 sizeIn cfg in
      let! batch2 := recordOutcome TriangleBlock cfg gasPriceWei sz sizeIn r2 batch1 in
      forEach ["A"; "B"]
        (fun variant b =>
           let! r := evalTriangleWombat sizeIn cfg variant in
           recordOutcome WombatBlock cfg gasPriceWei sz sizeIn r b) batch2
  end.

Definition consoleLog (r : Report) : M unit :=
  fun w => (inr tt, withConsole (console w ++ [r]) w).

(** One iteration of [while (true)]; it returns the ranked list. *)
Definition cycle (cfg : Config) (gasPriceWei : Z) : M (list Scored) :=
  let! batchResults := forEach (sizesWBNB cfg) (probeSize cfg gasPriceWei) [] in
  let ranked := rank batchResults in
  let! _ := nowIso in
  let! _ := (match ranked with
             | _ :: _ => consoleLog (Top10 ranked)
             | [] => consoleLog NoSuccessfulQuotes
             end) in
  ret ranked.

(** [while (true) { ... await sleep(pollMs) }] never returns; its finite
    runs are the first [n] iterations, for every [n]. *)
Fixpoint pollLoop (cfg : Config) (gasPriceWei : Z) (n : nat) : M unit :=
  match n with
  | O => ret tt
  | S n' => let! _ := cycle cfg gasPriceWei in pollLoop cfg gasPriceWei n'
  end.

End Probe.

(* ------------------------------------------------------------------ *)
(** ** The scorer in the words of the design: integers only *)

Module Exact.

(** Gas units per route type, as a sum of integers. *)
Definition gasUnits (routeType : string) (cfg : Config) : Z :=
  let g := gasEstimates cfg in
  if String.eqb routeType "V2→V3" || String.eqb routeType "V3→V2" then
    v2Swap g + v3Swap g
  else if String.eqb routeType "TRI" then 3 * v2Swap g
  else if String.eqb routeType "TRI_WOMBAT_A" || String.eqb routeType "TRI_WOMBAT_B"
  then 2 * v2Swap g + wombatSwap g
  else 2 * v2Swap g.

Definition gasCost (gasPrice : Z) (routeType : string) (cfg : Config) : Z :=
  gasPrice * gasUnits routeType cfg.

Definition flashFee (input : Z) (cfg : Config) : Z :=
  Z.quot (input * flashloanFeeBps cfg) 10000.

Definition rawProfit (input output : Z) : Z := output - input.

Definition bps (profit input : Z) : Z :=
  if input =? 0 then 0 else Z.quot (profit * 10000) input.

Definition netProfit (profit gas fee : Z) : Z := profit - gas - fee.

End Exact.

(** Gas estimates small enough for their sums to be exact doubles. *)
Definition smallGasEstimates (cfg : Config) : Prop :=
  Z.abs (v2Swap (gasEstimates cfg)) <= 2 ^ 50 /\
  Z.abs (v3Swap (gasEstimates cfg)) <= 2 ^ 50 /\
  Z.abs (wombatSwap (gasEstimates cfg)) <= 2 ^ 50.

(* ------------------------------------------------------------------ *)
(** ** Routes as sequences of legs *)

(** One quote-adapter invocation of a route. *)
Inductive Leg : Type :=
  | LegV2 (path : list string)
  | LegV3 (tokenIn tokenOut : string) (fee : Z)
  | LegWombat (fromToken toToken : string).

Inductive Route : Type :=
  | CrossVersion (dir : string)
  | TriangleV2
  | TriangleWombat (variant : string).

Section Legs.

Variable chain : Chain.

Definition quoteLeg (l : Leg) (amountIn : Z) : M Z :=
  match l with
  | LegV2 path => quoteV2 chain path amountIn
  | LegV3 tokenIn tokenOut fee => quoteV3Single chain tokenIn tokenOut fee amountIn
  | LegWombat fromToken toToken => quoteWombat chain fromToken toToken amountIn
  end.

(** The legs in order, each fed the output of the one before; a leg
    that throws ends the sequence. *)
Fixpoint runLegs (ls : list Leg) (amount : Z) : M Z :=
  match ls with
  | [] => ret amount
  | l :: ls' => let! out := quoteLeg l amount in runLegs ls' out
  end.

Definition evalRoute (sizeInWBNB : Z) (cfg : Config) (r : Route) : M RouteOutcome :=
  match r with
  | CrossVersion dir => evalCrossVersion chain sizeInWBNB cfg dir
  | TriangleV2 => evalTriangleV2 chain sizeInWBNB cfg
  | TriangleWombat variant => evalTriangleWombat chain sizeInWBNB cfg variant
  end.

End Legs.

(** The adapter calls each evaluator makes, in the order it makes them. *)
Definition routeLegs (cfg : Config) (r : Route) : list Leg :=
  let t := cfgTokens cfg in
  match r with
  | CrossVersion dir =>
      if String.eqb dir "V2->V3" then
        [LegV2 [addr (WBNB t); addr (USDT t)];
         LegV3 (addr (USDT t)) (addr (WBNB t)) (v3FeeTier_USDT_WBNB cfg)]
      else
        [LegV3 (addr (WBNB t)) (addr (USDT t)) (v3FeeTier_WBNB_USDT cfg);
         LegV2 [addr (USDT t); addr (WBNB t)]]
  | TriangleV2 =>
      [LegV2 [addr (WBNB t); addr (USDT t); addr (BUSD t); addr (WBNB t)]]
  | TriangleWombat variant =>
      if String.eqb variant "A" then
        [LegV2 [addr (WBNB t); addr (USDT t)];
         LegWombat (addr (USDT t)) (addr (USDC t));
         LegV2 [addr (USDC t); addr (WBNB t)]]
      else
        [LegV2 [addr (WBNB t); addr (USDC t)];
         LegWombat (addr (USDC t)) (addr (USDT t));
         LegV2 [addr (USDT t); addr (WBNB t)]]
  end.

(** The [routeType] an evaluator puts on its outcome. *)
Definition routeTag (r : Route) : string :=
  match r with
  | CrossVersion dir => crossRouteType dir
  | TriangleV2 => "TRI"
  | TriangleWombat variant => wombatRouteType variant
  end.

(** The [legs] description of a successful outcome. *)
Definition routeLabel (r : Route) : string :=
  match r with
  | CrossVersion dir => dir +:+ ":WBNB->USDT->WBNB"
  | TriangleV2 => "TRI_V2:WBNB->USDT->BUSD->WBNB"
  | TriangleWombat variant =>
      if String.eqb variant "A"
      then "TRI_WOMBAT_A:WBNB->USDT (V2)->USDC (Wombat)->WBNB (V2)"
      else "TRI_WOMBAT_B:WBNB->USDC (V2)->USDT (Wombat)->WBNB (V2)"
  end.

(** [c] is a call that leg [l] issues when quoting [amount]. *)
Definition isCallOf (l : Leg) (amount : Z) (c : Call) : Prop :=
  match l with
  | LegV2 path => c = GetAmountsOut amount path
  | LegV3 tokenIn tokenOut fee =>
      c = QuoteExactInputSingle tokenIn tokenOut fee amount \/
      c = QuoteExactInput tokenIn fee tokenOut amount
  | LegWombat fromToken toToken => c = QuotePotentialSwap fromToken toToken amount
  end.

(* ------------------------------------------------------------------ *)
(** ** Orders and scored results *)

(** A comparator that orders by [key], largest first; [byPnlDesc] is
    [cmpDesc sPnl]. *)
Definition cmpDesc {A} (key : A -> Z) (a b : A) : Z :=
  if key b <? key a then -1 else if key a <? key b then 1 else 0.

Definition descending {A} (key : A -> Z) : list A -> Prop :=
  StronglySorted (fun a b => key b <= key a).

(** The raw profit is output minus input and the net profit is the raw
    profit minus both costs. *)
Definition netted (s : Scored) : Prop :=
  sPnl s = sOut s - sIn s /\
  sNetPnl s = sPnl s - sGasWBNB s - sFlashFee s.

(* ------------------------------------------------------------------ *)
(** ** Reading rows and messages *)

(** Occurrences of a character; a line of the CSV file has one field more
    than it has separators. *)
Fixpoint countChar (c : ascii) (s : string) : nat :=
  match s with
  | EmptyString => O
  | String d s' => (if Ascii.eqb d c then 1 else 0)%nat + countChar c s'
  end.

Definition commas (s : string) : nat := countChar "," s.

(** [t] occurs in [s]. *)
Definition contains (s t : string) : Prop :=
  exists pre post, s = pre +:+ t +:+ post.

(** [s.includes(t)]: [t] starts at some position of [s]. *)
Fixpoint includes (s t : string) : bool :=
  String.prefix t s
  || match s with
     | EmptyString => false
     | String _ s' => includes s' t
     end.

(** The header line of the CSV file. *)
Definition headerLine : string := String.concat "," CSV_HEADERS +:+ newline.

(** The sink holds nothing: the file is missing, or has no content. *)
Definition sinkEmpty (w : World) : Prop :=
  csvFile w = None \/ csvFile w = Some "".

Definition isHeader (wr : Write) : bool :=
  match wr with WHeader _ => true | WRow _ => false end.

(** Header rows and data rows this process has appended. *)
Definition headerWrites (w : World) : nat :=
  length (List.filter isHeader (writes w)).

Definition rowWrites (w : World) : nat :=
  length (List.filter (fun wr => negb (isHeader wr)) (writes w)).

(* ------------------------------------------------------------------ *)
(** ** Assertions about computations *)

(** From a world satisfying [P], [m] either returns [a] in a world
    satisfying [Q a], or throws in a world satisfying [E]. *)
Definition hoare {A} (P : World -> Prop) (m : M A)
    (Q : A -> World -> Prop) (E : World -> Prop) : Prop :=
  forall w, P w ->
    match m w with
    | (inr a, w') => Q a w'
    | (inl _, w') => E w'
    end.

(** [m] returns, whatever the world. *)
Definition noThrow {A} (m : M A) : Prop :=
  forall w, exists a w', m w = (inr a, w').

(** [m] leaves the CSV file alone. *)
Definition sinkUntouched {A} (m : M A) : Prop :=
  forall w, csvFile (snd (m w)) = csvFile w /\ writes (snd (m w)) = writes w.

(** Since a world with file [f0] and appends [ws0], [k] rows have been
    appended, after the header if the file was missing. *)
Definition Appended (f0 : option string) (ws0 : list Write) (k : nat) (w : World)
  : Prop :=
  exists lines,
    length lines = k /\
    match k with
    | O => csvFile w = f0 /\ writes w = ws0
    | S _ =>
        is_Some (csvFile w) /\
        writes w = ws0
                   ++ match f0 with
                      | Some _ => []
                      | None => [WHeader headerLine]
                      end
                   ++ map WRow lines
    end.

(** The configured sizes are decimal strings that [parseUnits] accepts. *)
Definition sizesParse (rt : Runtime) (cfg : Config) : Prop :=
  Forall (fun sz => exists n, parseUnits rt sz (dec (WBNB (cfgTokens cfg))) = inr n)
         (sizesWBNB cfg).

(* ------------------------------------------------------------------ *)
(** ** A small configuration, chain and run time to evaluate on *)

Module Sample.

Definition cfg : Config :=
  {| gasEstimates := {| v2Swap := 2; v3Swap := 3; wombatSwap := 4 |};
     flashloanFeeBps := 10;
     cfgTokens := {| WBNB := {| addr := "0xW"; dec := 18 |};
                     USDT := {| addr := "0xT"; dec := 18 |};
                     USDC := {| addr := "0xC"; dec := 18 |};
                     BUSD := {| addr := "0xB"; dec := 18 |} |};
     v3FeeTier_USDT_WBNB := 500;
     v3FeeTier_WBNB_USDT := 500;
     cfgSizesWBNB := Some ["0.000000000000001"] |}.

Definition reverted (r m : string) : JsErr :=
  {| reason := Some r; message := m |}.

(** The first call of the run is answered, every later router call
    fails; the primary quoter form always reverts and the fallback form
    answers only as the third call; the stable pool is down. *)
Definition chain : Chain :=
  {| getAmountsOut := fun n a _ =>
       if (n =? 0)%nat then inr {| firstAmount := a; restAmounts := [a + 50] |}
       else inl (mkError "no, liquidity, at all");
     quoteExactInputSingle := fun _ _ _ _ _ =>
       inl (reverted "primary reverted" "call exception");
     quoteExactInput := fun n _ _ _ a =>
       if (n =? 2)%nat then inr (OutArray (a - 10) [1; 2; 3])
       else inl (mkError "fallback reverted");
     quotePotentialSwap := fun _ _ _ _ => inl (mkError "pool paused") |}.

(** Every call fails. *)
Definition deadChain : Chain :=
  {| getAmountsOut := fun _ _ _ => inl (mkError "down");
     quoteExactInputSingle := fun _ _ _ _ _ => inl (mkError "down");
     quoteExactInput := fun _ _ _ _ _ => inl (mkError "down");
     quotePotentialSwap := fun _ _ _ _ => inl (mkError "down") |}.

(** A revert text of two lines. *)
Definition twoLines : string := "bad pool," +:+ newline +:+ "paused".

(** Every call reverts with that text. *)
Definition twoLineChain : Chain :=
  {| getAmountsOut := fun _ _ _ => inl (mkError twoLines);
     quoteExactInputSingle := fun _ _ _ _ _ => inl (mkError twoLines);
     quoteExactInput := fun _ _ _ _ _ => inl (mkError twoLines);
     quotePotentialSwap := fun _ _ _ _ => inl (mkError twoLines) |}.

Definition rt : Runtime :=
  {| isoTime := fun n => "T" +:+ NilZero.string_of_uint (Nat.to_uint n);
     parseUnits := fun s _ =>
       if String.eqb s "0.000000000000001" then inr 1000
       else inl (mkError "invalid FixedNumber string value");
     numberToString := fun n =>
       match n with
       | JInt z => NilZero.string_of_int (Z.to_int z)
       | JInf false => "Infinity"
       | JInf true => "-Infinity"
       | JNaN => "NaN"
       end |}.

(** Start of a process: nothing issued, nothing written. *)
Definition start (file : option string) : World :=
  {| trace := []; clock := 0; csvFile := file; writes := []; console := [] |}.

End Sample.

(* ------------------------------------------------------------------ *)
(** ** Rendering and start-up helpers *)

(** [s.split(sep)] for a one-character separator: never empty. *)
Fixpoint split (sep : ascii) (s : string) : list string :=
  match s with
  | EmptyString => [EmptyString]
  | String c s' =>
      if Ascii.eqb c sep then EmptyString :: split sep s'
      else match split sep s' with
           | p :: ps => String c p :: ps
           | [] => [String c EmptyString]
           end
  end.

(** [bnToFloatStr(bn, decimals, maxDp = 8)]: [bn] is [None] for [null] or
    [undefined]; [formatUnits] is [ethers.formatUnits]; [maxDp] is a count
    of digits. *)
Definition bnToFloatStr (formatUnits : Z -> Z -> string)
    (bn : option Z) (decimals : Z) (maxDp : nat) : string :=
  match bn with
  | None => "0"
  | Some v =>
      let s := formatUnits v decimals in
      let parts := split "." s in
      let int := nth 0 parts "" in          (* parts is never empty *)
      let frac := nth 1 parts "" in         (* = "" by default *)
      if (maxDp =? 0)%nat then int
      else if (maxDp <? String.length frac)%nat
           then int +:+ "." +:+ slice0 maxDp frac
           else s
  end.

(** [args.findIndex(a => a === x)]: -1 when there is none. *)
Fixpoint findIndex (x : string) (args : list string) : Z :=
  match args with
  | [] => -1
  | a :: args' =>
      if String.eqb a x then 0
      else let i := findIndex x args' in if i <? 0 then -1 else i + 1
  end.

(** The [configPath] of [main]: [None] is [undefined], read past the end
    of [args]. *)
Definition configPath (args : list string) (defaultPath : string) : option string :=
  let configPathIdx := findIndex "--config" args in
  if 0 <=? configPathIdx then args !! Z.to_nat (configPathIdx + 1)
  else Some defaultPath.

(** Reading a persisted integer field back. *)
Definition parseBigInt (s : string) : option Z :=
  option_map Z.of_int (NilZero.int_of_string s).

(** The sign of a Number is not the opposite of the sign of [z]. *)
Definition sameSign (z : Z) (n : JsNumber) : Prop :=
  match n with
  | JInt m => (0 <= z -> 0 <= m) /\ (z <= 0 -> m <= 0)
  | JInf negative => if negative then z < 0 else 0 < z
  | JNaN => False
  end.

(** The table of gas units by kind of route, in Number arithmetic. *)
Definition gasUnitsOf (r : Route) (cfg : Config) : JsNumber :=
  let g := gasEstimates cfg in
  match r with
  | CrossVersion _ => jsAdd (JInt (v2Swap g)) (JInt (v3Swap g))
  | TriangleV2 => jsMul (JInt (v2Swap g)) (JInt 3)
  | TriangleWombat _ => jsAdd (jsMul (JInt (v2Swap g)) (JInt 2)) (JInt (wombatSwap g))
  end.

(** A formatter with one fractional digit at least, for evaluation. *)
Module Render.

Fixpoint zeros (n : nat) : string :=
  match n with
  | O => EmptyString
  | S n' => String "0" (zeros n')
  end.

(** Decimal rendering of an amount with [d] decimals, all fractional
    digits kept. *)
Definition formatUnits (v d : Z) : string :=
  let digits := NilZero.string_of_int (Z.to_int (Z.abs v)) in
  let k := Z.to_nat d in
  let padded := zeros (S k - String.length digits) +:+ digits in
  let n := String.length padded in
  (if v <? 0 then "-" else "")
  +:+ String.substring 0 (n - k) padded +:+ "." +:+ String.substring (n - k) k padded.

End Render.

(* ------------------------------------------------------------------ *)
(** ** More assertions about runs *)

(** [m] leaves the component [proj] of the world as it was. *)
Definition keeps {X A} (proj : World -> X) (m : M A) : Prop :=
  forall w, proj (snd (m w)) = proj w.

(** [m] returns [v], whatever the world. *)
Definition returns {A} (v : A) (m : M A) : Prop :=
  forall w, exists w', m w = (inr v, w').

(** No call to the chain is answered. *)
Definition allFail (chain : Chain) : Prop :=
  (forall n a p, exists e, getAmountsOut chain n a p = inl e) /\
  (forall n i o f a, exists e, quoteExactInputSingle chain n i o f a = inl e) /\
  (forall n i f o a, exists e, quoteExactInput chain n i f o a = inl e) /\
  (forall n x y a, exists e, quotePotentialSwap chain n x y a = inl e).

(** The five routes that [main] evaluates for each size. *)
Definition probedRoutes : list Route :=
  [CrossVersion "V2->V3"; CrossVersion "V3->V2"; TriangleV2;
   TriangleWombat "A"; TriangleWombat "B"].

(** The appends a run of the probe can make: the header line, the row of
    a failed attempt, the row of a scored attempt; each for a configured
    size, a probed route and a reading of the clock. *)
Inductive ProbeWrite (rt : Runtime) (cfg : Config) (gasPriceWei : Z) : Write -> Prop :=
  | PW_header : ProbeWrite rt cfg gasPriceWei (WHeader headerLine)
  | PW_failure (b : Block) (n : nat) (r : Route) (sz error : string) :
      sz ∈ sizesWBNB cfg -> r ∈ probedRoutes ->
      ProbeWrite rt cfg gasPriceWei
        (WRow (joinFields CSV_HEADERS
                 (failureRow b (isoTime rt n) (routeTag r) sz error) +:+ newline))
  | PW_success (n : nat) (r : Route) (sz : string) (sizeIn rIn rOut : Z) (s : Scored) :
      sz ∈ sizesWBNB cfg -> r ∈ probedRoutes ->
      score cfg gasPriceWei sz sizeIn (routeTag r) (routeLabel r) rIn rOut = Some s ->
      ProbeWrite rt cfg gasPriceWei
        (WRow (joinFields CSV_HEADERS (successRow rt (isoTime rt n) s) +:+ newline)).

(** The text of a sequence of appends. *)
Fixpoint writtenText (ws : list Write) : string :=
  match ws with
  | [] => EmptyString
  | wr :: ws' => writeText wr +:+ writtenText ws'
  end.

(** Since a world with file [f0] and appends [ws0], the probe has made
    the appends [new], and the file holds what it held followed by their
    text. *)
Definition Logged (rt : Runtime) (cfg : Config) (gasPriceWei : Z)
    (f0 : option string) (ws0 : list Write) (w : World) : Prop :=
  exists new,
    writes w = ws0 ++ new /\
    Forall (ProbeWrite rt cfg gasPriceWei) new /\
    csvFile w = match new with
                | [] => f0
                | _ :: _ => Some (default "" f0 +:+ writtenText new)
                end.

(** The most calls a leg can issue: the V3 adapter has two call forms. *)
Definition legCalls (l : Leg) : nat :=
  match l with
  | LegV3 _ _ _ => 2
  | _ => 1
  end.

(** What an evaluator of route [r] returns for [size]. *)
Definition outcomeOf (r : Route) (size : Z) (o : RouteOutcome) : Prop :=
  (exists error, o = Failure error (routeTag r)) \/
  (exists out, o = Success (routeTag r) (routeLabel r) size out).

(** The run time prints no comma in a timestamp or a Number. *)
Definition plainRuntime (rt : Runtime) : Prop :=
  (forall n, commas (isoTime rt n) = O) /\
  (forall x, commas (numberToString rt x) = O).

(* ------------------------------------------------------------------ *)
(** * Properties *)

(** ** Numbers *)

Example roundMantissa_small : roundMantissa 1040 = 1040.
Proof. reflexivity. Qed.

Example toDouble_2p53_1 : toDouble (2 ^ 53 + 1) = JInt (2 ^ 53).
Proof. vm_compute. reflexivity. Qed.

Example toDouble_2p53_3 : toDouble (2 ^ 53 + 3) = JInt (2 ^ 53 + 4).
Proof. vm_compute. reflexivity. Qed.

Example toDouble_neg : toDouble (- (2 ^ 53 + 1)) = JInt (- 2 ^ 53).
Proof. vm_compute. reflexivity. Qed.

Example toDouble_overflow : toDouble (2 ^ 1024) = JInf false.
Proof. vm_compute. reflexivity. Qed.

Example toDouble_max : toDouble (2 ^ 1024 - 2 ^ 971) = JInt (2 ^ 1024 - 2 ^ 971).
Proof. vm_compute. reflexivity. Qed.

Lemma roundMantissa_below (a : Z) : 0 <= a < 2 ^ 53 -> roundMantissa a = a.
Proof.
  intros [Ha Hb]. unfold roundMantissa.
  assert (Z.log2 a < 53) as Hlog.
  { destruct (Z.eq_dec a 0) as [->|Hne]; [reflexivity|].
    apply Z.log2_lt_pow2; lia. }
  destruct (Z.leb_spec (Z.log2 a - 52) 0); [reflexivity | lia].
Qed.

Lemma roundMantissa_exact (a : Z) : 0 <= a <= 2 ^ 53 -> roundMantissa a = a.
Proof.
  intros [Ha Hb].
  destruct (Z.eq_dec a (2 ^ 53)) as [->|Hne]; [vm_compute; reflexivity|].
  apply roundMantissa_below. lia.
Qed.

(** Integers of magnitude at most 2^53 are doubles: conversion is exact. *)
Lemma toDouble_exact (z : Z) : Z.abs z <= 2 ^ 53 -> toDouble z = JInt z.
Proof.
  intros Hz. unfold toDouble.
  rewrite roundMantissa_exact by lia.
  destruct (Z.leb_spec (2 ^ 1024) (Z.abs z)) as [Hbig|_].
  - assert (2 ^ 53 < 2 ^ 1024) by (apply Z.pow_lt_mono_r; lia). lia.
  - f_equal. destruct z; simpl; reflexivity.
Qed.

Lemma estimateGasUnits_exact (routeType : string) (cfg : Config) :
  smallGasEstimates cfg ->
  estimateGasUnitsForRoute routeType cfg = JInt (Exact.gasUnits routeType cfg).
Proof.
  intros (H2 & H3 & Hw).
  assert (2 ^ 50 = 1125899906842624) as E50 by reflexivity.
  assert (2 ^ 53 = 9007199254740992) as E53 by reflexivity.
  unfold estimateGasUnitsForRoute, Exact.gasUnits, jsAdd, jsMul.
  repeat match goal with
         | |- context [if ?b then _ else _] => destruct b
         end;
    repeat (rewrite toDouble_exact by lia); f_equal; lia.
Qed.

(** ** Scoring *)

Lemma score_fields cfg gasPriceWei sz sizeIn routeType legs rIn rOut s :
  score cfg gasPriceWei sz sizeIn routeType legs rIn rOut = Some s ->
  sIn s = rIn /\ sOut s = rOut /\
  sPnl s = rOut - rIn /\
  sBps s = safePctBps (rOut - rIn) rIn /\
  gasCostInWBNB gasPriceWei (estimateGasUnitsForRoute routeType cfg)
    = Some (sGasWBNB s) /\
  sFlashFee s = Z.quot (sizeIn * flashloanFeeBps cfg) 10000 /\
  sNetPnl s = sPnl s - sGasWBNB s - sFlashFee s.
Proof.
  unfold score, flashloanFeeInWBNB. simpl.
  destruct (gasCostInWBNB _ _) as [gas|]; [|discriminate].
  intros [= <-]. simpl. repeat split; reflexivity.
Qed.

(** The batch handed on by [recordOutcome] keeps [netted]. *)
Lemma recordOutcome_netted rt b cfg gasPriceWei sz sizeIn r batch w :
  Forall netted batch ->
  match recordOutcome rt b cfg gasPriceWei sz sizeIn r batch w with
  | (inr batch', _) => Forall netted batch'
  | (inl _, _) => True
  end.
Proof.
  intros Hb. destruct r as [routeType legs rIn rOut | error routeType]; simpl.
  - destruct (score _ _ _ _ _ _ _ _) as [s|] eqn:Hs; [| exact I].
    apply score_fields in Hs as (Hi & Ho & Hp & _ & _ & _ & Hn).
    unfold bind, nowIso. simpl.
    destruct (appendCsvRow _ _ _) as [[e|u] w1]; [exact I |]. simpl.
    apply Forall_app. split; [exact Hb |]. constructor; [| constructor].
    split; [by rewrite Hi, Ho | exact Hn].
  - unfold bind, nowIso. simpl.
    destruct (appendCsvRow _ _ _) as [[e|u] w1]; [exact I | exact Hb].
Qed.

Lemma forEach_keeps {A S} (J : S -> Prop) (l : list A) (body : A -> S -> M S) :
  (forall a s w, J s ->
     match body a s w with (inr s', _) => J s' | (inl _, _) => True end) ->
  forall s w, J s ->
    match forEach l body s w with (inr s', _) => J s' | (inl _, _) => True end.
Proof.
  intros Hbody. induction l as [|a l IH]; intros s w Hs; simpl; [exact Hs |].
  unfold bind. specialize (Hbody a s w Hs).
  destruct (body a s w) as [[e|s'] w1]; [exact I |]. by apply IH.
Qed.

Lemma probeSize_netted chain rt cfg gasPriceWei sz batch w :
  Forall netted batch ->
  match probeSize chain rt cfg gasPriceWei sz batch w with
  | (inr batch', _) => Forall netted batch'
  | (inl _, _) => True
  end.
Proof.
  intros Hb. unfold probeSize.
  destruct (parseUnits rt sz _) as [e|sizeIn]; [exact I |].
  assert (forall blk (ev : string -> M RouteOutcome) a s w0,
            Forall netted s ->
            match (let! r := ev a in
                   recordOutcome rt blk cfg gasPriceWei sz sizeIn r s) w0 with
            | (inr s', _) => Forall netted s'
            | (inl _, _) => True
            end) as Hattempt.
  { intros blk ev a s w0 Hs. unfold bind.
    destruct (ev a w0) as [[e|r] w1]; [exact I |].
    by apply recordOutcome_netted. }
  unfold bind at 1.
  pose proof (forEach_keeps (Forall netted) ["V2->V3"; "V3->V2"] _
                (Hattempt CrossBlock (evalCrossVersion chain sizeIn cfg))
                batch w Hb) as H1.
  destruct (forEach ["V2->V3"; "V3->V2"] _ batch w) as [[e|batch1] w1]; [exact I |].
  unfold bind at 1.
  destruct (evalTriangleV2 chain sizeIn cfg w1) as [[e|r2] w2]; [exact I |].
  unfold bind at 1.
  pose proof (recordOutcome_netted rt TriangleBlock cfg gasPriceWei sz sizeIn r2
                batch1 w2 H1) as H2.
  destruct (recordOutcome rt TriangleBlock _ _ _ _ _ _ w2) as [[e|batch2] w3];
    [exact I |].
  apply (forEach_keeps (Forall netted) ["A"; "B"] _
           (Hattempt WombatBlock (evalTriangleWombat chain sizeIn cfg))
           batch2 w3 H2).
Qed.

(** C1. For every scored result the net profit is the raw profit minus
    the gas cost minus the flash-loan fee, as an equality of integers, the
    raw profit being output minus input; so an input of 1000 with a final
    output of 1040, a gas cost of 5 and a flash fee of 1 gives a raw profit
    of 40 and a net profit of 34. This holds of every entry of the batch
    that a cycle collects. *)
Theorem score_net_profit :
  (forall cfg gasPriceWei sz sizeIn routeType legs rIn rOut s,
     score cfg gasPriceWei sz sizeIn routeType legs rIn rOut = Some s ->
     sPnl s = rOut - rIn /\
     sNetPnl s = sPnl s - sGasWBNB s - sFlashFee s /\
     (rIn = 1000 -> rOut = 1040 -> sGasWBNB s = 5 -> sFlashFee s = 1 ->
      sPnl s = 40 /\ sNetPnl s = 34)) /\
  (forall chain rt cfg gasPriceWei w batch w',
     forEach (sizesWBNB cfg) (probeSize chain rt cfg gasPriceWei) [] w
     = (inr batch, w') ->
     Forall netted batch).
Proof.
  split.
  - intros cfg gasPriceWei sz sizeIn routeType legs rIn rOut s Hs.
    apply score_fields in Hs as (_ & _ & Hp & _ & _ & _ & Hn).
    repeat split; try assumption; lia.
  - intros chain rt cfg gasPriceWei w batch w' Hrun.
    pose proof (forEach_keeps (Forall netted) (sizesWBNB cfg)
                  (probeSize chain rt cfg gasPriceWei)
                  (fun sz b w0 Hb => probeSize_netted chain rt cfg gasPriceWei sz b w0 Hb)
                  [] w (Forall_nil_2 _)) as H.
    by rewrite Hrun in H.
Qed.

(** C2 as stated fails once the quotient needs more than 53 bits: for a
    raw profit of 2^53 + 1 on an input of 10000 the truncated quotient is
    2^53 + 1, and [safePctBps] returns 2^53. *)
Lemma safePctBps_rounds :
  Z.quot ((2 ^ 53 + 1) * 10000) 10000 = 9007199254740993 /\
  safePctBps (2 ^ 53 + 1) 10000 = JInt 9007199254740992 /\
  safePctBps (2 ^ 53 + 1) 10000
    <> JInt (Z.quot ((2 ^ 53 + 1) * 10000) 10000).
Proof. vm_compute. repeat split; congruence. Qed.

(** C2, amended. The basis-points return is 0 when the input is 0;
    otherwise it is the truncating quotient of rawProfit * 10000 by the
    input, converted to a double-precision Number, which is that quotient
    itself whenever its magnitude is at most 2^53. *)
Theorem safePctBps_spec (pnl input : Z) :
  (input = 0 -> safePctBps pnl input = JInt 0) /\
  (input <> 0 ->
   safePctBps pnl input = toDouble (Z.quot (pnl * 10000) input)) /\
  (input <> 0 -> Z.abs (Z.quot (pnl * 10000) input) <= 2 ^ 53 ->
   safePctBps pnl input = JInt (Z.quot (pnl * 10000) input)).
Proof.
  unfold safePctBps, Number_of_BigInt.
  repeat split.
  - intros ->. reflexivity.
  - intros Hne. destruct (Z.eqb_spec input 0); [contradiction | reflexivity].
  - intros Hne Hq. destruct (Z.eqb_spec input 0); [contradiction |].
    apply toDouble_exact, Hq.
Qed.

(** C8 as stated fails on the basis points: with input 1000 and output
    1000 + 2^53 + 1 the exact quotient is 90071992547409930, which is not
    a double; the scored [bps] is the Number 90071992547409936. *)
Lemma score_bps_not_exact :
  exists s,
    score Sample.cfg 1 "0.000000000000001" 1000 "V2→V3" "" 1000 (1000 + 2 ^ 53 + 1)
      = Some s /\
    Exact.bps (Exact.rawProfit 1000 (1000 + 2 ^ 53 + 1)) 1000 = 90071992547409930 /\
    sBps s = JInt 90071992547409936 /\
    sBps s <> JInt (Exact.bps (Exact.rawProfit 1000 (1000 + 2 ^ 53 + 1)) 1000).
Proof.
  eexists. split; [vm_compute; reflexivity |].
  vm_compute. repeat split; congruence.
Qed.

(** C8, amended. Raw profit, flash fee and net profit are computed in
    exact integer arithmetic, and the gas cost is the exact integer product
    of the gas price and the gas units. Double-precision Numbers enter in
    two places: the gas units are summed as Numbers, which is exact for
    estimates of magnitude at most 2^50, and the basis points are the exact
    truncated quotient converted to a Number, which is exact for a quotient
    of magnitude at most 2^53. *)
Theorem score_exact_up_to_doubles cfg gasPriceWei sz sizeIn routeType legs rIn rOut :
  smallGasEstimates cfg ->
  exists s,
    score cfg gasPriceWei sz sizeIn routeType legs rIn rOut = Some s /\
    sPnl s = Exact.rawProfit rIn rOut /\
    sGasWBNB s = Exact.gasCost gasPriceWei routeType cfg /\
    sFlashFee s = Exact.flashFee sizeIn cfg /\
    sNetPnl s = Exact.netProfit (sPnl s) (sGasWBNB s) (sFlashFee s) /\
    sBps s = toDouble (Exact.bps (sPnl s) rIn) /\
    (Z.abs (Exact.bps (sPnl s) rIn) <= 2 ^ 53 ->
     sBps s = JInt (Exact.bps (sPnl s) rIn)).
Proof.
  intros Hgas.
  unfold score, gasCostInWBNB, flashloanFeeInWBNB.
  rewrite (estimateGasUnits_exact routeType cfg Hgas). simpl.
  eexists. split; [reflexivity |]. simpl.
  assert (safePctBps (rOut - rIn) rIn
          = toDouble (Exact.bps (Exact.rawProfit rIn rOut) rIn)) as Hb.
  { unfold safePctBps, Exact.bps, Exact.rawProfit, Number_of_BigInt.
    destruct (rIn =? 0); reflexivity. }
  repeat split; try reflexivity; try assumption.
  intros Hq. rewrite Hb. apply toDouble_exact, Hq.
Qed.

(** ** Ranking *)

Section Ranking.

Context {A : Type} (key : A -> Z).

Lemma cmpDesc_pos a b : (0 <? cmpDesc key a b) = (key a <? key b).
Proof.
  unfold cmpDesc.
  destruct (Z.ltb_spec (key b) (key a)), (Z.ltb_spec (key a) (key b));
    try reflexivity; lia.
Qed.

Lemma insertBy_perm x l : insertBy (cmpDesc key) x l ≡ₚ x :: l.
Proof.
  induction l as [|y l IH]; simpl; [reflexivity |].
  destruct (0 <? cmpDesc key x y); [| reflexivity].
  rewrite IH. apply Permutation_swap.
Qed.

Lemma sortBy_perm l : sortBy (cmpDesc key) l ≡ₚ l.
Proof.
  induction l as [|x l IH]; simpl; [reflexivity |].
  rewrite insertBy_perm. by f_equiv.
Qed.

Lemma insertBy_descending x l :
  descending key l -> descending key (insertBy (cmpDesc key) x l).
Proof.
  unfold descending. induction l as [|y l IH]; simpl; intros Hl.
  - repeat constructor.
  - rewrite cmpDesc_pos. apply StronglySorted_inv in Hl as [Hl Hy].
    destruct (Z.ltb_spec (key x) (key y)) as [Hlt|Hge].
    + constructor; [by apply IH |].
      rewrite Forall_forall. intros z Hz.
      rewrite insertBy_perm in Hz.
      apply elem_of_cons in Hz as [->|Hz]; [lia |].
      rewrite Forall_forall in Hy. by apply Hy.
    + constructor; [by constructor |].
      constructor; [lia |].
      eapply Forall_impl; [exact Hy |]. simpl. intros; lia.
Qed.

Lemma sortBy_descending l : descending key (sortBy (cmpDesc key) l).
Proof.
  induction l as [|x l IH]; simpl; [constructor |].
  by apply insertBy_descending.
Qed.

(** Stability: entries with the same key keep their order. *)
Lemma insertBy_stable (p : Z) x l :
  filter (fun a => key a = p) (insertBy (cmpDesc key) x l)
  = filter (fun a => key a = p) (x :: l).
Proof.
  induction l as [|y l IH]; simpl; [reflexivity |].
  rewrite cmpDesc_pos.
  destruct (Z.ltb_spec (key x) (key y)) as [Hlt|Hge]; [| reflexivity].
  rewrite (filter_cons _ y), IH, !filter_cons.
  repeat case_decide; try reflexivity; lia.
Qed.

Lemma sortBy_stable (p : Z) l :
  filter (fun a => key a = p) (sortBy (cmpDesc key) l)
  = filter (fun a => key a = p) l.
Proof.
  induction l as [|x l IH]; simpl; [reflexivity |].
  rewrite insertBy_stable, !filter_cons, IH. reflexivity.
Qed.

Lemma descending_take n l : descending key l -> descending key (take n l).
Proof.
  unfold descending. revert n. induction l as [|x l IH]; intros [|n] Hl;
    simpl; try constructor.
  - apply IH. by apply StronglySorted_inv in Hl as [? _].
  - apply StronglySorted_inv in Hl as [_ Hx]. by apply Forall_take.
Qed.

End Ranking.

Lemma filter_all {A} (l : list A) : filter (fun _ => True) l = l.
Proof.
  induction l as [|x l IH]; [reflexivity |].
  rewrite filter_cons_True by exact I. by rewrite IH.
Qed.

(** C6. The reported list is the first ten entries of the batch sorted by
    raw profit, largest first, by a stable sort: the sorted batch is a
    rearrangement of the batch in which entries of equal raw profit keep
    their batch order; the reported list is itself in descending order and
    has min(10, batch size) entries, so never more than 10. *)
Theorem rank_top10_descending (batch : list Scored) :
  exists sorted,
    sorted ≡ₚ batch /\
    descending sPnl sorted /\
    (forall p, filter (fun s => sPnl s = p) sorted
               = filter (fun s => sPnl s = p) batch) /\
    rank batch = take 10 sorted /\
    descending sPnl (rank batch) /\
    length (rank batch) = Nat.min 10 (length batch) /\
    (length (rank batch) <= 10)%nat.
Proof.
  exists (sortBy byPnlDesc batch).
  assert (rank batch = take 10 (sortBy byPnlDesc batch)) as Hr.
  { unfold rank. by rewrite filter_all. }
  change byPnlDesc with (cmpDesc sPnl) in *.
  split; [apply sortBy_perm |].
  split; [apply sortBy_descending |].
  split; [intros p; apply sortBy_stable |].
  split; [exact Hr |].
  rewrite Hr. split; [apply descending_take, sortBy_descending |].
  rewrite length_take, (Permutation_length (sortBy_perm sPnl batch)).
  split; lia.
Qed.

Example rank_keeps_ties_in_order :
  map sSize
    (rank (map (fun '(n, p) =>
                  {| sRouteType := "TRI"; sSize := n; sLegs := ""; sIn := 0;
                     sOut := p; sPnl := p; sBps := JInt 0; sGasWBNB := 0;
                     sFlashFee := 0; sNetPnl := p; sNote := "" |})
               [("a", 1); ("b", 3); ("c", 1); ("d", 2); ("e", 3)]))
  = ["b"; "e"; "d"; "a"; "c"].
Proof. vm_compute. reflexivity. Qed.

(** ** Strings *)

Lemma countChar_app c s t :
  countChar c (s +:+ t) = (countChar c s + countChar c t)%nat.
Proof. induction s as [|d s IH]; simpl; [reflexivity |]. rewrite IH. lia. Qed.

Lemma countChar_replaceAll c d s :
  c <> d -> countChar c (replaceAll c d s) = O.
Proof.
  intros Hne. induction s as [|a s IH]; simpl; [reflexivity |].
  rewrite IH. destruct (Ascii.eqb_spec a c) as [->|Ha].
  - destruct (Ascii.eqb_spec d c); [congruence | reflexivity].
  - destruct (Ascii.eqb_spec a c); [congruence | reflexivity].
Qed.

Lemma countChar_substring c n s :
  (countChar c (String.substring 0 n s) <= countChar c s)%nat.
Proof.
  revert s. induction n as [|n IH]; intros [|a s]; simpl; try lia.
  specialize (IH s). lia.
Qed.

Lemma length_substring0 n s : (String.length (String.substring 0 n s) <= n)%nat.
Proof.
  revert s. induction n as [|n IH]; intros [|a s]; simpl; try lia.
  specialize (IH s). lia.
Qed.

Lemma length_append s t :
  String.length (s +:+ t) = (String.length s + String.length t)%nat.
Proof. induction s as [|a s IH]; simpl; [reflexivity |]. by rewrite IH. Qed.

Lemma errPrefix_plain b :
  commas (errPrefix b) = O /\ (String.length (errPrefix b) <= 11)%nat.
Proof. destruct b; vm_compute; split; lia. Qed.

(** ** Failure rows *)

Section FailureRows.

Variables (b : Block) (ts routeType sz error : string).

Lemma failureRow_line :
  joinFields CSV_HEADERS (failureRow b ts routeType sz error)
  = ts +:+ "," +:+ routeType +:+ "," +:+ sz +:+ ",,0,0,0,0,0,0,0,"
       +:+ failureNote b error.
Proof. reflexivity. Qed.

Lemma failureNote_commas : commas (failureNote b error) = O.
Proof.
  unfold failureNote, commas, slice0. rewrite countChar_app.
  pose proof (errPrefix_plain b) as [Hp _]. unfold commas in Hp. rewrite Hp.
  pose proof (countChar_substring "," 160 (replaceAll "," ";" error)) as Hle.
  rewrite countChar_replaceAll in Hle by discriminate. lia.
Qed.

Lemma failureNote_length : (String.length (failureNote b error) <= 171)%nat.
Proof.
  unfold failureNote, slice0. rewrite length_append.
  pose proof (errPrefix_plain b) as [_ Hp].
  pose proof (length_substring0 160 (replaceAll "," ";" error)). lia.
Qed.

End FailureRows.

Lemma routeTag_commas (r : Route) : commas (routeTag r) = O.
Proof.
  destruct r as [dir| |variant]; simpl; unfold crossRouteType, wombatRouteType.
  - destruct (String.eqb dir "V2->V3"); reflexivity.
  - reflexivity.
  - destruct (String.eqb variant "A"); reflexivity.
Qed.

(** What the note does guarantee.  It is the block's fixed prefix followed
    by the first 160 characters of the error message with every comma
    replaced by a semicolon: it has at most 171 characters and no comma, so
    the commas of the text appended for a failed attempt are the 11
    separators and those of the timestamp, route type and size label. The
    route types the evaluators return have no comma either. *)
Lemma failureNote_no_comma (b : Block) (ts routeType sz error : string) :
  failureNote b error = errPrefix b +:+ slice0 160 (replaceAll "," ";" error) /\
  commas (replaceAll "," ";" error) = O /\
  (String.length (slice0 160 (replaceAll "," ";" error)) <= 160)%nat /\
  (String.length (failureNote b error) <= 171)%nat /\
  commas (failureNote b error) = O /\
  commas (joinFields CSV_HEADERS (failureRow b ts routeType sz error))
  = (11 + commas ts + commas routeType + commas sz)%nat /\
  (forall r : Route,
     commas (joinFields CSV_HEADERS (failureRow b ts (routeTag r) sz error))
     = (11 + commas ts + commas sz)%nat).
Proof.
  assert (forall t, commas (joinFields CSV_HEADERS (failureRow b ts t sz error))
                    = (11 + commas ts + commas t + commas sz)%nat) as Hline.
  { intros t. rewrite failureRow_line. unfold commas.
    rewrite !countChar_app.
    pose proof (failureNote_commas b error) as Hn. unfold commas in Hn.
    rewrite Hn. simpl. lia. }
  split; [reflexivity |].
  split; [apply countChar_replaceAll; discriminate |].
  split; [apply length_substring0 |].
  split; [apply failureNote_length |].
  split; [apply failureNote_commas |].
  split; [apply Hline |].
  intros r. rewrite Hline, routeTag_commas. lia.
Qed.

(** What it does not: the comma is the only character replaced, so every
    other character of the first 160 of the message reaches the note,
    the line break among them. *)
Lemma countChar_replaceAll_other x c d s :
  x <> c -> x <> d -> countChar x (replaceAll c d s) = countChar x s.
Proof.
  intros Hc Hd. induction s as [|a s IH]; simpl; [reflexivity |].
  rewrite IH. f_equal.
  destruct (Ascii.eqb_spec a c) as [->|Ha].
  - destruct (Ascii.eqb_spec d x); [congruence |].
    destruct (Ascii.eqb_spec c x); [congruence | reflexivity].
  - reflexivity.
Qed.

Lemma substring0_short n s :
  (String.length s <= n)%nat -> String.substring 0 n s = s.
Proof.
  revert n. induction s as [|a s IH]; intros [|n] Hn; simpl in *;
    try reflexivity; try lia.
  rewrite IH by lia. reflexivity.
Qed.

Lemma failureNote_line_breaks (b : Block) (error : string) :
  (String.length error <= 160)%nat ->
  countChar (Ascii.ascii_of_nat 10) (failureNote b error)
  = countChar (Ascii.ascii_of_nat 10) error.
Proof.
  intros Hlen. unfold failureNote, slice0.
  rewrite countChar_app, substring0_short.
  - rewrite countChar_replaceAll_other by discriminate.
    destruct b; reflexivity.
  - enough (String.length (replaceAll "," ";" error) = String.length error)
      as -> by assumption.
    clear Hlen b.
    induction error as [|a s IH]; simpl; [reflexivity | by rewrite IH].
Qed.

(** C7. A failed attempt whose error message holds a line break: every
    router call reverts with the two-line text "bad pool," / "paused". The
    triangle evaluation fails with that text behind the adapter's prefix;
    the note made of it has its comma replaced and is well below the
    length bound, but keeps the line break; and the one append of the
    attempt puts two lines in the file: the row, cut in the middle of its
    note, with its 11 separators, and a stray line "paused" that has a
    single field.  The escaping leaves the row format open to corruption
    by the error text. *)
Theorem failure_note_keeps_line_break :
  let msg := "V2 quote failed: bad pool," +:+ newline +:+ "paused" in
  let w1 := {| trace := [GetAmountsOut 1000 ["0xW"; "0xT"; "0xB"; "0xW"]];
               clock := 0; csvFile := Some ""; writes := []; console := [] |} in
  let line :=
    "T0,TRI,0.000000000000001,,0,0,0,0,0,0,0,ERR 2two:V2 quote failed: bad pool;" in
  let text := line +:+ newline +:+ "paused" +:+ newline in
  evalRoute Sample.twoLineChain 1000 Sample.cfg TriangleV2 (Sample.start (Some ""))
  = (inr (Failure msg "TRI"), w1) /\
  failureNote TriangleBlock msg
  = "ERR 2two:V2 quote failed: bad pool;" +:+ newline +:+ "paused" /\
  (String.length (failureNote TriangleBlock msg) = 42)%nat /\
  exists w2,
    recordOutcome Sample.rt TriangleBlock Sample.cfg 1 "0.000000000000001" 1000
                  (Failure msg "TRI") [] w1 = (inr [], w2) /\
    writes w2 = [WRow text] /\
    csvFile w2 = Some text /\
    split (Ascii.ascii_of_nat 10) text = [line; "paused"; ""] /\
    map commas [line; "paused"; ""] = [11; 0; 0]%nat.
Proof.
  intros msg w1 line text.
  split; [reflexivity |].
  split; [reflexivity |].
  split; [reflexivity |].
  eexists. split; [reflexivity |].
  split; [reflexivity |].
  split; [reflexivity |].
  split; reflexivity.
Qed.

Example failure_note_sample :
  failureNote CrossBlock "V2 quote failed: no, liquidity, at all"
  = "ERR 1one:V2 quote failed: no; liquidity; at all".
Proof. reflexivity. Qed.

(** C10. The row of a failed attempt has an empty legs field and "0" in
    each of the seven monetary fields, whatever the trade size; the
    timestamp, route type, size label and note are the only fields that
    vary, and the attempt appends exactly that row to the sink. *)
Theorem failure_row_zeroed rt (b : Block) cfg gasPriceWei (sz : string) sizeIn
    (error routeType : string) batch w :
  let ts := isoTime rt (clock w) in
  let row := failureRow b ts routeType sz error in
  row !! "legs" = Some "" /\
  Forall (fun h => row !! h = Some "0")
         ["in"; "out"; "pnl"; "bps"; "gasCostWBNB"; "flashFeeWBNB"; "netPnl"] /\
  row !! "timestamp" = Some ts /\
  row !! "routeType" = Some routeType /\
  row !! "size" = Some sz /\
  row !! "note" = Some (failureNote b error) /\
  joinFields CSV_HEADERS row
  = ts +:+ "," +:+ routeType +:+ "," +:+ sz +:+ ",,0,0,0,0,0,0,0,"
       +:+ failureNote b error /\
  exists w',
    recordOutcome rt b cfg gasPriceWei sz sizeIn (Failure error routeType) batch w
    = (inr batch, w') /\
    writes w' = writes w
                ++ match csvFile w with
                   | Some _ => []
                   | None => [WHeader headerLine]
                   end
                ++ [WRow (joinFields CSV_HEADERS row +:+ newline)].
Proof.
  intros ts row.
  split; [reflexivity |].
  split; [repeat constructor |].
  do 5 (split; [reflexivity |]).
  unfold recordOutcome, appendCsvRow, bind, nowIso, existsSync, appendFileSync, ret.
  simpl. destruct (csvFile w) as [content|] eqn:Hf; simpl.
  - eexists. split; [reflexivity |]. reflexivity.
  - eexists. split; [reflexivity |]. simpl. by rewrite <- app_assoc.
Qed.

(** ** The concentrated-liquidity adapter *)

Lemma contains_here pre t post : contains (pre +:+ t +:+ post) t.
Proof. by exists pre, post. Qed.

Lemma append_assoc (a b c : string) : (a +:+ b) +:+ c = a +:+ b +:+ c.
Proof.
  induction a as [|x a IH]; [reflexivity |].
  change (String x ((a +:+ b) +:+ c) = String x (a +:+ b +:+ c)).
  by rewrite IH.
Qed.

Lemma prefix_append (t post : string) : String.prefix t (t +:+ post) = true.
Proof.
  induction t as [|a t IH]; simpl; [by destruct post |].
  destruct (Ascii.ascii_dec a a); [exact IH | congruence].
Qed.

Lemma includes_unfold (s t : string) :
  includes s t
  = String.prefix t s
    || match s with
       | EmptyString => false
       | String _ s' => includes s' t
       end.
Proof. destruct s; reflexivity. Qed.

(** [includes] finds every occurrence. *)
Lemma includes_complete (s t : string) : contains s t -> includes s t = true.
Proof.
  intros (pre & post & ->). induction pre as [|a pre IH].
  - change ("" +:+ t +:+ post) with (t +:+ post).
    rewrite includes_unfold, prefix_append. reflexivity.
  - change (String a pre +:+ t +:+ post) with (String a (pre +:+ t +:+ post)).
    rewrite includes_unfold, IH. apply orb_true_r.
Qed.

(** C4 as stated fails when an underlying error has a reason: the primary
    form reverts with the reason "primary reverted" and the message
    "call exception", the retry fails too, and the error the adapter
    throws carries the reason of the first error and not its message. *)
Lemma fallback_error_drops_message :
  quoteExactInputSingle Sample.chain 0 "0xW" "0xT" 500 1000
  = inl {| reason := Some "primary reverted"; message := "call exception" |} /\
  quoteExactInput Sample.chain 1 "0xW" 500 "0xT" 1000
  = inl {| reason := None; message := "fallback reverted" |} /\
  fst (quoteV3Single Sample.chain "0xW" "0xT" 500 1000 (Sample.start None))
  = inl {| reason := None;
           message := "V3 quote failed: fallback reverted (fallback after: primary reverted)" |} /\
  ~ contains "V3 quote failed: fallback reverted (fallback after: primary reverted)"
             "call exception".
Proof.
  split; [reflexivity |]. split; [reflexivity |]. split; [reflexivity |].
  intros H. apply includes_complete in H. vm_compute in H. discriminate.
Qed.

(** C4, amended. When the primary call form fails, the adapter issues
    exactly one more call, the encoded-path form with the same tokens, fee
    and amount (packing the path of configured addresses and fee tier does
    not fail). If that call answers, the quote is the amount of the
    answer - the answer itself when it is a bigint, its first element when
    it is an array, its [amountOut] when it is an object - and no error is
    raised. If it fails too, the quote fails with the message
    "V3 quote failed: <second> (fallback after: <first>)", where the text
    taken from each underlying error is its reason when it has a non-empty
    one and its message otherwise; so the message of an underlying error
    is in the text whenever that error has no reason. *)
Theorem quoteV3Single_fallback chain tokenIn tokenOut fee amountIn w e1 :
  quoteExactInputSingle chain (length (trace w)) tokenIn tokenOut fee amountIn
    = inl e1 ->
  let second :=
    quoteExactInput chain (S (length (trace w))) tokenIn fee tokenOut amountIn in
  let result := quoteV3Single chain tokenIn tokenOut fee amountIn w in
  let text := fun e : JsErr =>
    match reason e with
    | Some r => if String.eqb r "" then message e else r
    | None => message e
    end in
  trace (snd result)
  = trace w ++ [QuoteExactInputSingle tokenIn tokenOut fee amountIn;
                QuoteExactInput tokenIn fee tokenOut amountIn] /\
  (forall z, second = inr (OutBigint z) -> fst result = inr z) /\
  (forall z rest, second = inr (OutArray z rest) -> fst result = inr z) /\
  (forall z, second = inr (OutNamed z) -> fst result = inr z) /\
  (forall e2, second = inl e2 ->
     exists msg,
       fst result = inl {| reason := None; message := msg |} /\
       msg = "V3 quote failed: " +:+ text e2
             +:+ " (fallback after: " +:+ text e1 +:+ ")" /\
       contains msg (text e1) /\
       contains msg (text e2) /\
       (reason e1 = None -> contains msg (message e1)) /\
       (reason e2 = None -> contains msg (message e2))).
Proof.
  intros H1 second result text.
  assert (forall a b : string,
            contains ("V3 quote failed: " +:+ b +:+ " (fallback after: " +:+ a +:+ ")") a
            /\ contains ("V3 quote failed: " +:+ b +:+ " (fallback after: " +:+ a +:+ ")") b)
    as Hboth.
  { intros a b. split.
    - rewrite <- (append_assoc "V3 quote failed: " b).
      rewrite <- (append_assoc _ " (fallback after: ").
      apply contains_here.
    - apply contains_here. }
  unfold result, quoteV3Single, tryCatch, bind, rpc, ret, throw. simpl.
  rewrite H1. simpl.
  rewrite length_app, Nat.add_1_r. simpl. fold second.
  destruct second as [e2|out2] eqn:H2; simpl.
  - split; [by rewrite <- app_assoc |].
    split; [intros ? [=] |].
    split; [intros ? ? [=] |].
    split; [intros ? [=] |].
    intros ? [= <-]. eexists. split; [reflexivity |]. split; [reflexivity |].
    change (reasonOrMessage e1) with (text e1).
    change (reasonOrMessage e2) with (text e2).
    destruct (Hboth (text e1) (text e2)) as [Ha Hb].
    split; [exact Ha |]. split; [exact Hb |].
    split; intros Hnone.
    + replace (message e1) with (text e1); [exact Ha |].
      unfold text. by rewrite Hnone.
    + replace (message e2) with (text e2); [exact Hb |].
      unfold text. by rewrite Hnone.
  - split; [by rewrite <- app_assoc |].
    split; [by intros ? [= ->] |].
    split; [by intros ? ? [= ->] |].
    split; [by intros ? [= ->] |].
    intros ? [=].
Qed.

(** ** Route evaluation *)

Section RouteEvaluation.

Variable chain : Chain.

(** Each evaluator runs its legs in order and wraps the result. *)
Lemma evalRoute_runLegs size cfg r w :
  evalRoute chain size cfg r w
  = match runLegs chain (routeLegs cfg r) size w with
    | (inr out, w') => (inr (Success (routeTag r) (routeLabel r) size out), w')
    | (inl e, w') => (inr (Failure (message e) (routeTag r)), w')
    end.
Proof.
  destruct r as [dir| |variant]; simpl.
  - unfold evalCrossVersion, tryCatch, bind, ret.
    destruct (String.eqb dir "V2->V3"); simpl; unfold bind, ret.
    + destruct (quoteV2 _ _ _ w) as [[e|mid] w1]; [reflexivity |].
      destruct (quoteV3Single _ _ _ _ _ w1) as [[e|out] w2]; reflexivity.
    + destruct (quoteV3Single _ _ _ _ _ w) as [[e|mid] w1]; [reflexivity |].
      destruct (quoteV2 _ _ _ w1) as [[e|out] w2]; reflexivity.
  - unfold evalTriangleV2, tryCatch, bind, ret.
    destruct (quoteV2 _ _ _ w) as [[e|out] w1]; reflexivity.
  - unfold evalTriangleWombat, wombatRouteType, tryCatch, bind, ret.
    destruct (String.eqb variant "A"); simpl; unfold bind, ret;
      (destruct (quoteV2 _ _ _ w) as [[e|o1] w1]; [reflexivity |]);
      (destruct (quoteWombat _ _ _ _ w1) as [[e|o2] w2]; [reflexivity |]);
      destruct (quoteV2 _ _ _ w2) as [[e|o3] w3]; reflexivity.
Qed.

(** Every outcome, successful or failed, is tagged with the route's type. *)
Lemma evalRoute_tag size cfg r w :
  outcomeRouteType (fst (evalRoute chain size cfg r w)) = inr (routeTag r).
Proof.
  rewrite evalRoute_runLegs.
  by destruct (runLegs _ _ _ w) as [[e|out] w1].
Qed.

(** A leg that throws ends the sequence in the world it leaves. *)
Lemma runLegs_fail ls : forall k leg size w amt w1 e w2,
  ls !! k = Some leg ->
  runLegs chain (take k ls) size w = (inr amt, w1) ->
  quoteLeg chain leg amt w1 = (inl e, w2) ->
  runLegs chain ls size w = (inl e, w2).
Proof.
  induction ls as [|l0 ls IH]; intros k leg size w amt w1 e w2 Hk Hpre Hleg.
  - destruct k; discriminate.
  - destruct k as [|k]; simpl in *.
    + injection Hk as ->. unfold ret in Hpre. injection Hpre as -> ->.
      unfold bind. by rewrite Hleg.
    + unfold bind in *.
      destruct (quoteLeg chain l0 size w) as [[e0|a0] w0]; [discriminate |].
      eapply IH; eassumption.
Qed.

(** The calls a leg issues are its own. *)
Lemma quoteLeg_trace leg amt w :
  exists cs,
    trace (snd (quoteLeg chain leg amt w)) = trace w ++ cs /\
    Forall (isCallOf leg amt) cs.
Proof.
  destruct leg as [path|tokenIn tokenOut fee|fromToken toToken]; simpl.
  - exists [GetAmountsOut amt path].
    unfold quoteV2, tryCatch, bind, rpc, ret, throw. simpl.
    destruct (getAmountsOut _ _ _ _); simpl; split; try reflexivity;
      by repeat constructor.
  - unfold quoteV3Single, tryCatch, bind, rpc, ret, throw. simpl.
    destruct (quoteExactInputSingle _ _ _ _ _ _); simpl.
    + exists [QuoteExactInputSingle tokenIn tokenOut fee amt;
              QuoteExactInput tokenIn fee tokenOut amt].
      destruct (quoteExactInput _ _ _ _ _ _); simpl;
        (split; [by rewrite <- app_assoc |]);
        (constructor; [by left |]); (constructor; [by right |]); constructor.
    + exists [QuoteExactInputSingle tokenIn tokenOut fee amt].
      split; [reflexivity |]. constructor; [by left | constructor].
  - exists [QuotePotentialSwap fromToken toToken amt].
    unfold quoteWombat, tryCatch, bind, rpc, ret, throw. simpl.
    destruct (quotePotentialSwap _ _ _ _ _); simpl; split; try reflexivity;
      by repeat constructor.
Qed.

End RouteEvaluation.

(** C3. In every route evaluation, when the legs before leg k+1 (counting
    from 0: the first k legs) have answered and the next leg's quote
    fails, the evaluation returns a failed outcome that carries that leg's
    error message and the route's type - "V2→V3" or "V3→V2" for the two
    cross-version directions, "TRI" for the triangle, "TRI_WOMBAT_A" or
    "TRI_WOMBAT_B" for the two stable-pool variants - and it ends in the
    world that the failed quote left: the calls issued since that leg
    started are that leg's own, and no call of a later leg follows. *)
Theorem failed_leg_short_circuits chain cfg size (r : Route) (k : nat) leg
    amt e w w1 w2 :
  routeLegs cfg r !! k = Some leg ->
  runLegs chain (take k (routeLegs cfg r)) size w = (inr amt, w1) ->
  quoteLeg chain leg amt w1 = (inl e, w2) ->
  evalRoute chain size cfg r w
  = (inr (Failure (message e)
            match r with
            | CrossVersion dir =>
                if String.eqb dir "V2->V3" then "V2→V3" else "V3→V2"
            | TriangleV2 => "TRI"
            | TriangleWombat variant =>
                if String.eqb variant "A" then "TRI_WOMBAT_A" else "TRI_WOMBAT_B"
            end), w2) /\
  exists cs, trace w2 = trace w1 ++ cs /\ Forall (isCallOf leg amt) cs.
Proof.
  intros Hk Hpre Hleg. split.
  - rewrite evalRoute_runLegs.
    rewrite (runLegs_fail chain _ _ _ _ _ _ _ _ _ Hk Hpre Hleg).
    by destruct r.
  - pose proof (quoteLeg_trace chain leg amt w1) as Ht.
    by rewrite Hleg in Ht.
Qed.

(** ** Rules for assertions *)

Section Rules.

Context {A B : Type}.

Lemma hoare_ret (P : World -> Prop) (a : A) (Q : A -> World -> Prop) E :
  (forall w, P w -> Q a w) -> hoare P (ret a) Q E.
Proof. intros H w Hw. by apply H. Qed.

Lemma hoare_throw e (Q : A -> World -> Prop) (E : World -> Prop) :
  hoare E (throw e) Q E.
Proof. intros w Hw. exact Hw. Qed.

Lemma hoare_bind P (m : M A) (k : A -> M B) R Q E :
  hoare P m R E -> (forall a, hoare (R a) (k a) Q E) -> hoare P (bind m k) Q E.
Proof.
  intros Hm Hk w Hw. unfold bind. specialize (Hm w Hw).
  destruct (m w) as [[e|a] w1]; [exact Hm |]. by apply Hk.
Qed.

Lemma hoare_weaken (P P' : World -> Prop) (m : M A) (Q Q' : A -> World -> Prop)
    (E E' : World -> Prop) :
  hoare P' m Q' E' ->
  (forall w, P w -> P' w) -> (forall a w, Q' a w -> Q a w) ->
  (forall w, E' w -> E w) ->
  hoare P m Q E.
Proof.
  intros Hm HP HQ HE w Hw. specialize (Hm w (HP w Hw)).
  destruct (m w) as [[e|a] w1]; auto.
Qed.

Lemma noThrow_ret (a : A) : noThrow (ret a).
Proof. intros w. by exists a, w. Qed.

Lemma noThrow_bind (m : M A) (k : A -> M B) :
  noThrow m -> (forall a, noThrow (k a)) -> noThrow (bind m k).
Proof.
  intros Hm Hk w. unfold bind. destruct (Hm w) as (a & w1 & ->). apply Hk.
Qed.

Lemma noThrow_tryCatch (m : M A) (h : JsErr -> M A) :
  (forall e, noThrow (h e)) -> noThrow (tryCatch m h).
Proof.
  intros Hh w. unfold tryCatch. destruct (m w) as [[e|a] w1] eqn:Hm.
  - apply Hh.
  - by exists a, w1.
Qed.

Lemma sinkUntouched_ret (a : A) : sinkUntouched (ret a).
Proof. by intros w. Qed.

Lemma sinkUntouched_throw e : sinkUntouched (@throw A e).
Proof. by intros w. Qed.

Lemma sinkUntouched_rpc c (answer : nat -> JsErr + A) : sinkUntouched (rpc c answer).
Proof. by intros w. Qed.

Lemma sinkUntouched_bind (m : M A) (k : A -> M B) :
  sinkUntouched m -> (forall a, sinkUntouched (k a)) -> sinkUntouched (bind m k).
Proof.
  intros Hm Hk w. unfold bind. destruct (Hm w) as [Hf Hw].
  destruct (m w) as [[e|a] w1]; simpl in *; [done |].
  destruct (Hk a w1) as [Hf' Hw']. split; congruence.
Qed.

Lemma sinkUntouched_tryCatch (m : M A) (h : JsErr -> M A) :
  sinkUntouched m -> (forall e, sinkUntouched (h e)) ->
  sinkUntouched (tryCatch m h).
Proof.
  intros Hm Hh w. unfold tryCatch. destruct (Hm w) as [Hf Hw].
  destruct (m w) as [[e|a] w1]; simpl in *; [| done].
  destruct (Hh e w1) as [Hf' Hw']. split; congruence.
Qed.

(** A computation that leaves the file alone keeps every assertion
    about the file. *)
Lemma hoare_sinkUntouched (m : M A) f0 ws0 k :
  sinkUntouched m ->
  hoare (Appended f0 ws0 k) m (fun _ => Appended f0 ws0 k) (Appended f0 ws0 k).
Proof.
  intros Hm w Hw. destruct (Hm w) as [Hf Hws].
  assert (Appended f0 ws0 k (snd (m w))) as H'.
  { unfold Appended in *. by rewrite Hf, Hws. }
  by destruct (m w) as [[e|a] w1].
Qed.

End Rules.

Create HintDb sink.

#[local] Hint Resolve sinkUntouched_ret sinkUntouched_throw sinkUntouched_rpc : sink.
#[local] Hint Extern 2 (sinkUntouched (bind _ _)) =>
  apply sinkUntouched_bind; [| intros ?] : sink.
#[local] Hint Extern 2 (sinkUntouched (tryCatch _ _)) =>
  apply sinkUntouched_tryCatch; [| intros ?] : sink.

Section Loops.

Context {A S : Type}.

Lemma noThrow_forEach (l : list A) (body : A -> S -> M S) s :
  Forall (fun a => forall s', noThrow (body a s')) l ->
  noThrow (forEach l body s).
Proof.
  intros Hl. revert s. induction Hl as [|a l Ha Hl IH]; intros s; simpl.
  - apply noThrow_ret.
  - apply noThrow_bind; [apply Ha | intros s'; apply IH].
Qed.

(** A body that moves the assertion [I n] to [I (n + c)] moves it, over
    the whole list, to [I (n + c * length l)]. *)
Lemma hoare_forEach (I : nat -> World -> Prop) (E : World -> Prop) (c : nat)
    (l : list A) (body : A -> S -> M S) :
  (forall a s n, hoare (I n) (body a s) (fun _ => I (n + c)%nat) E) ->
  forall s n, hoare (I n) (forEach l body s) (fun _ => I (n + c * length l)%nat) E.
Proof.
  intros Hbody. induction l as [|a l IH]; intros s n; simpl.
  - replace (n + c * 0)%nat with n by lia. by apply hoare_ret.
  - eapply hoare_bind; [apply Hbody |]. intros s'. simpl.
    replace (n + c * Datatypes.S (length l))%nat
      with ((n + c) + c * length l)%nat by lia.
    apply IH.
Qed.

End Loops.

(** ** The sink through a cycle *)

Lemma score_defined cfg gasPriceWei sz sizeIn routeType legs rIn rOut :
  smallGasEstimates cfg ->
  is_Some (score cfg gasPriceWei sz sizeIn routeType legs rIn rOut).
Proof.
  intros Hgas. unfold score, gasCostInWBNB, flashloanFeeInWBNB.
  rewrite (estimateGasUnits_exact routeType cfg Hgas). simpl. by eexists.
Qed.

Section Sink.

Variables (chain : Chain) (rt : Runtime).
Variables (cfg : Config) (gasPriceWei : Z).

(** The file and the appends the assertions are relative to. *)
Variables (f0 : option string) (ws0 : list Write).

Let E : World -> Prop := fun w => exists k, Appended f0 ws0 k w.

Lemma quoteLeg_sinkUntouched leg amt : sinkUntouched (quoteLeg chain leg amt).
Proof.
  destruct leg; simpl; unfold quoteV2, quoteV3Single, quoteWombat;
    auto 10 with sink.
Qed.

Lemma runLegs_sinkUntouched ls : forall amt, sinkUntouched (runLegs chain ls amt).
Proof.
  induction ls as [|l ls IH]; intros amt; simpl; [auto with sink |].
  apply sinkUntouched_bind; [apply quoteLeg_sinkUntouched | intros ?; apply IH].
Qed.

Lemma evalRoute_sinkUntouched size r : sinkUntouched (evalRoute chain size cfg r).
Proof.
  intros w. rewrite evalRoute_runLegs.
  destruct (runLegs_sinkUntouched (routeLegs cfg r) size w) as [Hf Hw].
  by destruct (runLegs _ _ _ w) as [[e|out] w1].
Qed.

(** An evaluator catches every failure of its legs. *)
Lemma evalRoute_noThrow size r : noThrow (evalRoute chain size cfg r).
Proof.
  intros w. rewrite evalRoute_runLegs.
  destruct (runLegs _ _ _ w) as [[e|out] w1]; by eexists _, _.
Qed.

Lemma nowIso_sinkUntouched : sinkUntouched (nowIso rt).
Proof. by intros w. Qed.

Lemma nowIso_noThrow : noThrow (nowIso rt).
Proof. intros w. by eexists _, _. Qed.

Lemma consoleLog_sinkUntouched r : sinkUntouched (consoleLog r).
Proof. by intros w. Qed.

Lemma appendCsvRow_noThrow headers row : noThrow (appendCsvRow headers row).
Proof.
  intros w. unfold appendCsvRow, bind, existsSync, appendFileSync, ret.
  destruct (csvFile w); simpl; by eexists _, _.
Qed.

(** What one [appendCsvRow] does to the file. *)
Lemma appendCsvRow_writes row w :
  exists w',
    appendCsvRow CSV_HEADERS row w = (inr tt, w') /\
    is_Some (csvFile w') /\
    writes w' = writes w
                ++ match csvFile w with
                   | Some _ => []
                   | None => [WHeader headerLine]
                   end
                ++ [WRow (joinFields CSV_HEADERS row +:+ newline)].
Proof.
  unfold appendCsvRow, bind, existsSync, appendFileSync, ret.
  destruct (csvFile w) as [content|] eqn:Hf; simpl.
  - eexists. split; [reflexivity |]. simpl. split; [by eexists | reflexivity].
  - eexists. split; [reflexivity |]. simpl. split; [by eexists |].
    by rewrite <- app_assoc.
Qed.

Lemma appendCsvRow_appended row k :
  hoare (Appended f0 ws0 k) (appendCsvRow CSV_HEADERS row)
        (fun _ => Appended f0 ws0 (S k)) E.
Proof.
  intros w (lines & Hlen & Hk).
  destruct (appendCsvRow_writes row w) as (w' & -> & Hsome & Hws).
  set (line := joinFields CSV_HEADERS row +:+ newline) in *.
  exists (lines ++ [line]). split; [rewrite length_app; simpl; lia |].
  split; [exact Hsome |]. rewrite Hws.
  destruct k as [|k].
  - destruct Hk as [-> ->]. apply length_zero_iff_nil in Hlen as ->. reflexivity.
  - destruct Hk as [[content ->] ->].
    rewrite map_app. simpl. by rewrite <- !app_assoc.
Qed.

Lemma hoare_untouched {A} (m : M A) k :
  sinkUntouched m ->
  hoare (Appended f0 ws0 k) m (fun _ => Appended f0 ws0 k) E.
Proof.
  intros Hm w Hw. pose proof (hoare_sinkUntouched m f0 ws0 k Hm w Hw) as H.
  destruct (m w) as [[e|a] w1]; [by exists k | exact H].
Qed.

(** Scoring and persisting an outcome appends exactly one row. *)
Lemma recordOutcome_appended b sz sizeIn r batch k :
  hoare (Appended f0 ws0 k)
        (recordOutcome rt b cfg gasPriceWei sz sizeIn r batch)
        (fun _ => Appended f0 ws0 (S k)) E.
Proof.
  destruct r as [routeType legs rIn rOut | error routeType]; simpl.
  - destruct (score _ _ _ _ _ _ _ _) as [s|].
    + eapply hoare_bind; [apply hoare_untouched, nowIso_sinkUntouched |].
      intros ts. simpl.
      eapply hoare_bind; [apply appendCsvRow_appended |].
      intros ?. by apply hoare_ret.
    + intros w Hw. by exists k.
  - eapply hoare_bind; [apply hoare_untouched, nowIso_sinkUntouched |].
    intros ts. simpl.
    eapply hoare_bind; [apply appendCsvRow_appended |].
    intros ?. by apply hoare_ret.
Qed.

Lemma recordOutcome_noThrow b sz sizeIn r batch :
  smallGasEstimates cfg ->
  noThrow (recordOutcome rt b cfg gasPriceWei sz sizeIn r batch).
Proof.
  intros Hgas. destruct r as [routeType legs rIn rOut | error routeType]; simpl.
  - destruct (score_defined cfg gasPriceWei sz sizeIn routeType legs rIn rOut Hgas)
      as [s ->].
    apply noThrow_bind; [apply nowIso_noThrow | intros ts].
    apply noThrow_bind; [apply appendCsvRow_noThrow | intros _].
    apply noThrow_ret.
  - apply noThrow_bind; [apply nowIso_noThrow | intros ts].
    apply noThrow_bind; [apply appendCsvRow_noThrow | intros _].
    apply noThrow_ret.
Qed.

(** One evaluation followed by its handling: one row. *)
Lemma attempt_appended b sz sizeIn r batch k :
  hoare (Appended f0 ws0 k)
        (let! o := evalRoute chain sizeIn cfg r in
         recordOutcome rt b cfg gasPriceWei sz sizeIn o batch)
        (fun _ => Appended f0 ws0 (k + 1)) E.
Proof.
  eapply hoare_bind; [apply hoare_untouched, evalRoute_sinkUntouched |].
  intros o. simpl. replace (k + 1)%nat with (Datatypes.S k) by lia.
  apply recordOutcome_appended.
Qed.

Lemma attempt_noThrow b sz sizeIn r batch :
  smallGasEstimates cfg ->
  noThrow (let! o := evalRoute chain sizeIn cfg r in
           recordOutcome rt b cfg gasPriceWei sz sizeIn o batch).
Proof.
  intros Hgas. apply noThrow_bind; [apply evalRoute_noThrow |].
  intros o. by apply recordOutcome_noThrow.
Qed.

Lemma Appended_eq k k' w : Appended f0 ws0 k w -> k = k' -> Appended f0 ws0 k' w.
Proof. by intros H <-. Qed.

(** The five attempts of one trade size: five rows. *)
Lemma probeSize_appended sz batch k :
  hoare (Appended f0 ws0 k) (probeSize chain rt cfg gasPriceWei sz batch)
        (fun _ => Appended f0 ws0 (k + 5)) E.
Proof.
  unfold probeSize. destruct (parseUnits rt sz _) as [e|sizeIn].
  { intros w Hw. by exists k. }
  eapply hoare_bind.
  { apply (hoare_forEach (Appended f0 ws0) E 1).
    intros dir b n. apply (attempt_appended CrossBlock sz sizeIn (CrossVersion dir)). }
  intros batch1. cbv beta.
  eapply hoare_bind.
  { apply hoare_untouched, (evalRoute_sinkUntouched sizeIn TriangleV2). }
  intros r2. cbv beta.
  eapply hoare_bind; [apply recordOutcome_appended |].
  intros batch2. cbv beta.
  eapply hoare_weaken.
  { apply (hoare_forEach (Appended f0 ws0) E 1).
    intros variant b n.
    apply (attempt_appended WombatBlock sz sizeIn (TriangleWombat variant)). }
  - intros w Hw. exact Hw.
  - intros a w Hw. apply (Appended_eq _ _ _ Hw). simpl. lia.
  - intros w Hw. exact Hw.
Qed.

Lemma probeSize_noThrow sz batch :
  smallGasEstimates cfg ->
  (exists n, parseUnits rt sz (dec (WBNB (cfgTokens cfg))) = inr n) ->
  noThrow (probeSize chain rt cfg gasPriceWei sz batch).
Proof.
  intros Hgas [sizeIn Hparse]. unfold probeSize. rewrite Hparse.
  apply noThrow_bind.
  { apply noThrow_forEach. repeat constructor; intros b;
      by apply (attempt_noThrow CrossBlock sz sizeIn (CrossVersion _)). }
  intros batch1. apply noThrow_bind.
  { apply (evalRoute_noThrow sizeIn TriangleV2). }
  intros r2. apply noThrow_bind; [by apply recordOutcome_noThrow |].
  intros batch2. apply noThrow_forEach.
  repeat constructor; intros b;
    by apply (attempt_noThrow WombatBlock sz sizeIn (TriangleWombat _)).
Qed.

(** A whole cycle: five rows per trade size. *)
Lemma cycle_appended k :
  hoare (Appended f0 ws0 k) (cycle chain rt cfg gasPriceWei)
        (fun _ => Appended f0 ws0 (k + 5 * length (sizesWBNB cfg))) E.
Proof.
  unfold cycle.
  eapply hoare_bind.
  { apply (hoare_forEach (Appended f0 ws0) E 5). intros sz b n.
    apply probeSize_appended. }
  intros batch. simpl.
  eapply hoare_bind; [apply hoare_untouched, nowIso_sinkUntouched |].
  intros ts. simpl.
  eapply hoare_bind.
  { apply hoare_untouched. destruct (rank batch); apply consoleLog_sinkUntouched. }
  intros ?. by apply hoare_ret.
Qed.

Lemma cycle_noThrow :
  smallGasEstimates cfg -> sizesParse rt cfg ->
  noThrow (cycle chain rt cfg gasPriceWei).
Proof.
  intros Hgas Hsizes. unfold cycle.
  apply noThrow_bind.
  { apply noThrow_forEach. eapply Forall_impl; [exact Hsizes |].
    simpl. intros sz Hsz b. by apply probeSize_noThrow. }
  intros batch. apply noThrow_bind; [apply nowIso_noThrow | intros ts].
  apply noThrow_bind; [| intros _; apply noThrow_ret].
  intros w. destruct (rank batch); by eexists _, _.
Qed.

Lemma pollLoop_appended n : forall k,
  hoare (Appended f0 ws0 k) (pollLoop chain rt cfg gasPriceWei n)
        (fun _ => Appended f0 ws0 (k + n * (5 * length (sizesWBNB cfg)))) E.
Proof.
  induction n as [|n IH]; intros k; simpl.
  - apply hoare_ret. intros w Hw. apply (Appended_eq _ _ _ Hw). lia.
  - eapply hoare_bind; [apply cycle_appended |]. intros ?. simpl.
    eapply hoare_weaken; [apply IH | intros w Hw; exact Hw | | intros w Hw; exact Hw].
    intros ? w Hw. apply (Appended_eq _ _ _ Hw). lia.
Qed.

End Sink.

Lemma Appended_start f0 ws0 w :
  csvFile w = f0 -> writes w = ws0 -> Appended f0 ws0 0 w.
Proof. intros Hf Hw. by exists []. Qed.

Lemma sizesWBNB_nonempty cfg : (0 < length (sizesWBNB cfg))%nat.
Proof.
  unfold sizesWBNB. destruct (cfgSizesWBNB cfg) as [[|sz l]|]; simpl; lia.
Qed.

(** ** Counting what was written *)

Lemma filter_isHeader_rows lines : List.filter isHeader (map WRow lines) = [].
Proof. induction lines as [|l lines IH]; simpl; [reflexivity | exact IH]. Qed.

Lemma filter_rows_rows lines :
  List.filter (fun wr => negb (isHeader wr)) (map WRow lines) = map WRow lines.
Proof. induction lines as [|l lines IH]; simpl; [reflexivity | by rewrite IH]. Qed.

Lemma Appended_counts f0 ws0 k w :
  Appended f0 ws0 k w ->
  headerWrites w
  = (length (List.filter isHeader ws0)
     + match f0, k with None, S _ => 1 | _, _ => 0 end)%nat /\
  rowWrites w
  = (length (List.filter (fun wr => negb (isHeader wr)) ws0) + k)%nat.
Proof.
  intros (lines & Hlen & Hk). unfold headerWrites, rowWrites.
  destruct k as [|k].
  - destruct Hk as [_ ->]. destruct f0; split; lia.
  - destruct Hk as [_ ->].
    rewrite !List.filter_app, !length_app, filter_isHeader_rows, filter_rows_rows.
    rewrite length_map, Hlen. destruct f0; simpl; split; lia.
Qed.

(** C5. Each route attempt that is handled, successful or failed, appends
    exactly one row, and every cycle that runs to its end appends five rows
    per trade size (after the header, when the file was missing): the
    number of rows written in the cycle is 5 times the number of trade
    sizes. A cycle runs to its end whenever the trade sizes parse and the
    gas estimates have magnitude at most 2^50. *)
Theorem cycle_writes_five_rows_per_size chain rt cfg gasPriceWei w :
  (forall b sz sizeIn r batch w0 batch' w1,
     recordOutcome rt b cfg gasPriceWei sz sizeIn r batch w0 = (inr batch', w1) ->
     rowWrites w1 = (rowWrites w0 + 1)%nat) /\
  (forall ranked w',
     cycle chain rt cfg gasPriceWei w = (inr ranked, w') ->
     rowWrites w' = (rowWrites w + 5 * length (sizesWBNB cfg))%nat /\
     exists lines,
       length lines = (5 * length (sizesWBNB cfg))%nat /\
       writes w' = writes w
                   ++ match csvFile w with
                      | Some _ => []
                      | None => [WHeader headerLine]
                      end
                   ++ map WRow lines) /\
  (smallGasEstimates cfg -> sizesParse rt cfg ->
   exists ranked w', cycle chain rt cfg gasPriceWei w = (inr ranked, w')).
Proof.
  split; [| split].
  - intros b sz sizeIn r batch w0 batch' w1 Hrun.
    pose proof (recordOutcome_appended rt cfg gasPriceWei (csvFile w0) (writes w0)
                  b sz sizeIn r batch 0 w0 (Appended_start _ _ _ eq_refl eq_refl)) as H.
    rewrite Hrun in H. cbv beta iota in H.
    pose proof (Appended_counts _ _ _ _ H) as [_ ->]. reflexivity.
  - intros ranked w' Hrun.
    pose proof (cycle_appended chain rt cfg gasPriceWei (csvFile w) (writes w) 0 w
                  (Appended_start _ _ _ eq_refl eq_refl)) as H.
    rewrite Hrun in H. cbv beta iota in H. rewrite Nat.add_0_l in H.
    pose proof (Appended_counts _ _ _ _ H) as [_ Hrows].
    split; [exact Hrows |].
    pose proof (sizesWBNB_nonempty cfg) as Hne.
    destruct H as (lines & Hlen & Hk).
    destruct (5 * length (sizesWBNB cfg))%nat as [|k] eqn:Hn; [lia |].
    destruct Hk as [_ Hws]. by exists lines.
  - intros Hgas Hsizes.
    apply (cycle_noThrow chain rt cfg gasPriceWei Hgas Hsizes w).
Qed.

(** C9 as stated fails for a file that exists but is empty: the sink holds
    nothing at startup, the first cycle appends its five rows, and no
    header row is written. *)
Lemma no_header_for_empty_existing_file :
  sinkEmpty (Sample.start (Some "")) /\
  fst (pollLoop Sample.deadChain Sample.rt Sample.cfg 1 1 (Sample.start (Some "")))
  = inr tt /\
  rowWrites
    (snd (pollLoop Sample.deadChain Sample.rt Sample.cfg 1 1 (Sample.start (Some ""))))
  = 5%nat /\
  headerWrites
    (snd (pollLoop Sample.deadChain Sample.rt Sample.cfg 1 1 (Sample.start (Some ""))))
  = 0%nat /\
  headerWrites
    (snd (pollLoop Sample.deadChain Sample.rt Sample.cfg 1 1 (Sample.start (Some ""))))
  <> 1%nat.
Proof. split; [by right |]. vm_compute. repeat split. discriminate. Qed.

(** C9, amended. Over any number of cycles: when the file exists at
    startup, with or without content, no header row is written; when it
    does not exist, either nothing has been written yet or exactly one
    header row has been written, before the first data row, and never a
    second one; and once a first cycle has completed, it has been written. *)
Theorem header_written_once chain rt cfg gasPriceWei (n : nat) w0 :
  (is_Some (csvFile w0) ->
   headerWrites (snd (pollLoop chain rt cfg gasPriceWei n w0)) = headerWrites w0) /\
  (csvFile w0 = None ->
   writes (snd (pollLoop chain rt cfg gasPriceWei n w0)) = writes w0 \/
   exists lines,
     lines <> [] /\
     writes (snd (pollLoop chain rt cfg gasPriceWei n w0))
     = writes w0 ++ WHeader headerLine :: map WRow lines) /\
  (csvFile w0 = None ->
   (headerWrites (snd (pollLoop chain rt cfg gasPriceWei n w0))
    <= headerWrites w0 + 1)%nat) /\
  (csvFile w0 = None -> n <> O ->
   (exists u, fst (pollLoop chain rt cfg gasPriceWei n w0) = inr u) ->
   headerWrites (snd (pollLoop chain rt cfg gasPriceWei n w0))
   = (headerWrites w0 + 1)%nat).
Proof.
  pose proof (pollLoop_appended chain rt cfg gasPriceWei (csvFile w0) (writes w0) n 0 w0
                (Appended_start _ _ _ eq_refl eq_refl)) as H.
  assert (exists k,
            Appended (csvFile w0) (writes w0) k
                     (snd (pollLoop chain rt cfg gasPriceWei n w0)) /\
            ((exists u, fst (pollLoop chain rt cfg gasPriceWei n w0) = inr u) ->
             k = (n * (5 * length (sizesWBNB cfg)))%nat)) as (k & Hk & Hdone).
  { destruct (pollLoop chain rt cfg gasPriceWei n w0) as [[e|u] w1]; simpl in *.
    - destruct H as [k Hk]. exists k. split; [exact Hk |]. by intros [? ?].
    - eexists. split; [exact H | reflexivity]. }
  clear H. pose proof (Appended_counts _ _ _ _ Hk) as [Hh _].
  fold (headerWrites w0) in Hh.
  repeat split.
  - intros [content Hf]. rewrite Hf in Hh. lia.
  - intros Hf. destruct Hk as (lines & Hlen & Hshape). destruct k as [|k].
    + left. by destruct Hshape.
    + right. exists lines. split; [by destruct lines |].
      destruct Hshape as [_ ->]. by rewrite Hf.
  - intros Hf. rewrite Hf in Hh. destruct k; lia.
  - intros Hf Hn Hrun. rewrite Hf in Hh. specialize (Hdone Hrun).
    pose proof (sizesWBNB_nonempty cfg). destruct k; [nia | lia].
Qed.

(** ** The theorems at the sample inputs *)

Lemma sample_small_gas : smallGasEstimates Sample.cfg.
Proof. unfold smallGasEstimates. simpl. repeat split; vm_compute; discriminate. Defined.

Lemma sample_sizes_parse : sizesParse Sample.rt Sample.cfg.
Proof.
  unfold sizesParse. simpl. constructor; [| constructor].
  exists 1000. reflexivity.
Defined.

Lemma score_net_profit_witness :
  exists s,
    score Sample.cfg 1 "0.000000000000001" 1000 "V2→V3"
          "V2->V3:WBNB->USDT->WBNB" 1000 1040 = Some s /\
    sGasWBNB s = 5 /\ sFlashFee s = 1 /\ sPnl s = 40 /\ sNetPnl s = 34.
Proof.
  eexists. split; [reflexivity |].
  split; [reflexivity |]. split; [reflexivity |].
  refine (proj2 (proj2 (proj1 score_net_profit Sample.cfg 1 "0.000000000000001"
                          1000 "V2→V3" "V2->V3:WBNB->USDT->WBNB" 1000 1040 _ eq_refl))
                eq_refl eq_refl eq_refl eq_refl).
Defined.

Lemma safePctBps_spec_witness :
  safePctBps 40 1000 = JInt 400 /\ safePctBps 40 0 = JInt 0.
Proof.
  destruct (safePctBps_spec 40 1000) as (_ & _ & Hq).
  destruct (safePctBps_spec 40 0) as (Hz & _).
  split; [| apply Hz; reflexivity].
  change (JInt 400) with (JInt (Z.quot (40 * 10000) 1000)).
  apply Hq; [lia | vm_compute; discriminate].
Defined.

Lemma score_exact_up_to_doubles_witness :
  exists s,
    score Sample.cfg 1 "0.000000000000001" 1000 "V2→V3"
          "V2->V3:WBNB->USDT->WBNB" 1000 1040 = Some s /\
    sPnl s = 40 /\ sGasWBNB s = 5 /\ sFlashFee s = 1 /\ sNetPnl s = 34 /\
    sBps s = JInt 400.
Proof.
  destruct (score_exact_up_to_doubles Sample.cfg 1 "0.000000000000001" 1000
              "V2→V3" "V2->V3:WBNB->USDT->WBNB" 1000 1040 sample_small_gas)
    as (s & Hs & Hp & Hg & Hf & Hn & _ & Hb).
  exists s. split; [exact Hs |].
  split; [exact Hp |]. split; [exact Hg |]. split; [exact Hf |].
  split.
  - rewrite Hn, Hp, Hg, Hf. reflexivity.
  - rewrite Hp in Hb. apply Hb. vm_compute. discriminate.
Defined.

Lemma failed_leg_short_circuits_witness :
  evalRoute Sample.chain 1000 Sample.cfg (TriangleWombat "A") (Sample.start None)
  = (inr (Failure "Wombat quote failed: pool paused" "TRI_WOMBAT_A"),
     {| trace := [GetAmountsOut 1000 ["0xW"; "0xT"];
                  QuotePotentialSwap "0xT" "0xC" 1050];
        clock := 0; csvFile := None; writes := []; console := [] |}) /\
  evalRoute Sample.chain 1000 Sample.cfg (CrossVersion "V3->V2") (Sample.start None)
  = (inr (Failure "V3 quote failed: fallback reverted (fallback after: primary reverted)"
                  "V3→V2"),
     {| trace := [QuoteExactInputSingle "0xW" "0xT" 500 1000;
                  QuoteExactInput "0xW" 500 "0xT" 1000];
        clock := 0; csvFile := None; writes := []; console := [] |}) /\
  evalRoute Sample.deadChain 1000 Sample.cfg (CrossVersion "V2->V3") (Sample.start None)
  = (inr (Failure "V2 quote failed: down" "V2→V3"),
     {| trace := [GetAmountsOut 1000 ["0xW"; "0xT"]];
        clock := 0; csvFile := None; writes := []; console := [] |}) /\
  evalRoute Sample.deadChain 1000 Sample.cfg TriangleV2 (Sample.start None)
  = (inr (Failure "V2 quote failed: down" "TRI"),
     {| trace := [GetAmountsOut 1000 ["0xW"; "0xT"; "0xB"; "0xW"]];
        clock := 0; csvFile := None; writes := []; console := [] |}) /\
  evalRoute Sample.deadChain 1000 Sample.cfg (TriangleWombat "B") (Sample.start None)
  = (inr (Failure "V2 quote failed: down" "TRI_WOMBAT_B"),
     {| trace := [GetAmountsOut 1000 ["0xW"; "0xC"]];
        clock := 0; csvFile := None; writes := []; console := [] |}).
Proof.
  split; [| split; [| split; [| split]]].
  - refine (proj1 (failed_leg_short_circuits Sample.chain Sample.cfg 1000
                     (TriangleWombat "A") 1 (LegWombat "0xT" "0xC") 1050
                     (mkError "Wombat quote failed: pool paused")
                     (Sample.start None)
                     {| trace := [GetAmountsOut 1000 ["0xW"; "0xT"]];
                        clock := 0; csvFile := None; writes := []; console := [] |}
                     _ eq_refl eq_refl eq_refl)).
  - refine (proj1 (failed_leg_short_circuits Sample.chain Sample.cfg 1000
                     (CrossVersion "V3->V2") 0 (LegV3 "0xW" "0xT" 500) 1000
                     (mkError "V3 quote failed: fallback reverted (fallback after: primary reverted)")
                     (Sample.start None) (Sample.start None)
                     _ eq_refl eq_refl eq_refl)).
  - refine (proj1 (failed_leg_short_circuits Sample.deadChain Sample.cfg 1000
                     (CrossVersion "V2->V3") 0 (LegV2 ["0xW"; "0xT"]) 1000
                     (mkError "V2 quote failed: down")
                     (Sample.start None) (Sample.start None)
                     _ eq_refl eq_refl eq_refl)).
  - refine (proj1 (failed_leg_short_circuits Sample.deadChain Sample.cfg 1000
                     TriangleV2 0 (LegV2 ["0xW"; "0xT"; "0xB"; "0xW"]) 1000
                     (mkError "V2 quote failed: down")
                     (Sample.start None) (Sample.start None)
                     _ eq_refl eq_refl eq_refl)).
  - refine (proj1 (failed_leg_short_circuits Sample.deadChain Sample.cfg 1000
                     (TriangleWombat "B") 0 (LegV2 ["0xW"; "0xC"]) 1000
                     (mkError "V2 quote failed: down")
                     (Sample.start None) (Sample.start None)
                     _ eq_refl eq_refl eq_refl)).
Defined.

Lemma quoteV3Single_fallback_witness :
  fst (quoteV3Single Sample.chain "0xT" "0xW" 500 1050
         {| trace := [GetAmountsOut 1000 ["0xW"; "0xT"]];
            clock := 0; csvFile := None; writes := []; console := [] |})
  = inr 1040 /\
  fst (quoteV3Single Sample.chain "0xW" "0xT" 500 1000 (Sample.start None))
  = inl (mkError "V3 quote failed: fallback reverted (fallback after: primary reverted)") /\
  contains "V3 quote failed: fallback reverted (fallback after: primary reverted)"
           "primary reverted" /\
  contains "V3 quote failed: fallback reverted (fallback after: primary reverted)"
           "fallback reverted".
Proof.
  split.
  - pose proof (quoteV3Single_fallback Sample.chain "0xT" "0xW" 500 1050
                  {| trace := [GetAmountsOut 1000 ["0xW"; "0xT"]];
                     clock := 0; csvFile := None; writes := []; console := [] |}
                  (Sample.reverted "primary reverted" "call exception") eq_refl)
      as (_ & _ & Harr & _).
    exact (Harr 1040 [1; 2; 3] eq_refl).
  - pose proof (quoteV3Single_fallback Sample.chain "0xW" "0xT" 500 1000
                  (Sample.start None)
                  (Sample.reverted "primary reverted" "call exception") eq_refl)
      as (_ & _ & _ & _ & Hfail).
    destruct (Hfail (mkError "fallback reverted") eq_refl)
      as (msg & Hres & -> & H1 & _ & _ & H2).
    split; [exact Hres |]. split; [exact H1 | exact (H2 eq_refl)].
Defined.

Lemma cycle_writes_five_rows_per_size_witness :
  exists ranked w' lines,
    cycle Sample.chain Sample.rt Sample.cfg 1 (Sample.start None) = (inr ranked, w') /\
    length lines = 5%nat /\
    writes w' = WHeader headerLine :: map WRow lines /\
    rowWrites w' = 5%nat.
Proof.
  destruct (cycle_writes_five_rows_per_size Sample.chain Sample.rt Sample.cfg 1
              (Sample.start None)) as (_ & Hcount & Hruns).
  destruct (Hruns sample_small_gas sample_sizes_parse) as (ranked & w' & Hrun).
  destruct (Hcount ranked w' Hrun) as (Hrows & lines & Hlen & Hws).
  exists ranked, w', lines. repeat split; assumption.
Defined.

Lemma header_written_once_witness :
  headerWrites
    (snd (pollLoop Sample.deadChain Sample.rt Sample.cfg 1 2 (Sample.start None)))
  = 1%nat /\
  headerWrites
    (snd (pollLoop Sample.deadChain Sample.rt Sample.cfg 1 2 (Sample.start (Some "old"))))
  = 0%nat.
Proof.
  split.
  - destruct (header_written_once Sample.deadChain Sample.rt Sample.cfg 1 2
                (Sample.start None)) as (_ & _ & _ & H).
    apply H; [reflexivity | discriminate |].
    exists tt. vm_compute. reflexivity.
  - destruct (header_written_once Sample.deadChain Sample.rt Sample.cfg 1 2
                (Sample.start (Some "old"))) as (H & _).
    apply H. simpl. by eexists.
Defined.

(* ------------------------------------------------------------------ *)
(** * Further properties of the program *)

(** ** The cost model *)

(** X1. For a non-negative amount and a fee of at most 10000 basis points
    the flash-loan fee is computed, lies between 0 and the amount, and is
    amount * bps / 10000 rounded down: fee * 10000 <= amount * bps <
    (fee + 1) * 10000. *)
Theorem flashloanFee_bounds (amount : Z) (cfg : Config) :
  0 <= amount -> 0 <= flashloanFeeBps cfg <= 10000 ->
  exists fee,
    flashloanFeeInWBNB amount cfg = Some fee /\
    0 <= fee <= amount /\
    fee * 10000 <= amount * flashloanFeeBps cfg < (fee + 1) * 10000.
Proof.
  intros Ha [Hb0 Hb1]. unfold flashloanFeeInWBNB. simpl.
  eexists. split; [reflexivity |].
  rewrite Z.quot_div_nonneg by nia.
  set (x := amount * flashloanFeeBps cfg) in *.
  assert (0 <= x <= amount * 10000) as Hx by (unfold x; nia).
  pose proof (Z.div_mod x 10000 ltac:(lia)) as Hdm.
  pose proof (Z.mod_pos_bound x 10000 ltac:(lia)) as Hm.
  assert (0 <= x / 10000) by (apply Z.div_pos; lia).
  repeat split; nia.
Qed.

Lemma flashloanFee_bounds_witness :
  flashloanFeeInWBNB 1000 Sample.cfg = Some 1.
Proof.
  destruct (flashloanFee_bounds 1000 Sample.cfg) as (fee & Hf & _ & Hlo & Hhi);
    [lia | simpl; lia |].
  rewrite Hf. f_equal. simpl in Hlo, Hhi. lia.
Defined.

(** X2. For every route an evaluator can tag, the gas units are read from
    the table of the route's kind - both cross-version directions cost one
    V2 swap plus one V3 swap, the triangle three V2 swaps, both stable-hop
    variants two V2 swaps plus one Wombat swap - so the default branch is
    never taken for the probe's own routes; with estimates of magnitude at
    most 2^50 these are the exact integer sums. *)
Theorem gas_units_by_route_kind (r : Route) (cfg : Config) :
  estimateGasUnitsForRoute (routeTag r) cfg = gasUnitsOf r cfg /\
  (smallGasEstimates cfg ->
   gasUnitsOf r cfg
   = JInt match r with
          | CrossVersion _ => v2Swap (gasEstimates cfg) + v3Swap (gasEstimates cfg)
          | TriangleV2 => 3 * v2Swap (gasEstimates cfg)
          | TriangleWombat _ =>
              2 * v2Swap (gasEstimates cfg) + wombatSwap (gasEstimates cfg)
          end).
Proof.
  assert (estimateGasUnitsForRoute (routeTag r) cfg = gasUnitsOf r cfg) as Htab.
  { destruct r as [dir| |variant]; simpl; unfold crossRouteType, wombatRouteType.
    - destruct (String.eqb dir "V2->V3"); reflexivity.
    - reflexivity.
    - destruct (String.eqb variant "A"); reflexivity. }
  split; [exact Htab |].
  intros Hgas. rewrite <- Htab, (estimateGasUnits_exact _ _ Hgas). f_equal.
  destruct r as [dir| |variant]; simpl; unfold crossRouteType, wombatRouteType,
    Exact.gasUnits.
  - destruct (String.eqb dir "V2->V3"); reflexivity.
  - reflexivity.
  - destruct (String.eqb variant "A"); reflexivity.
Qed.

Lemma gas_units_by_route_kind_witness :
  estimateGasUnitsForRoute (routeTag (TriangleWombat "B")) Sample.cfg = JInt 8.
Proof.
  destruct (gas_units_by_route_kind (TriangleWombat "B") Sample.cfg) as [Ht Hx].
  rewrite Ht. apply (Hx sample_small_gas).
Defined.

(** ** Basis points *)

Lemma roundMantissa_nonneg (a : Z) : 0 <= a -> 0 <= roundMantissa a.
Proof.
  intros Ha. unfold roundMantissa.
  destruct (Z.leb_spec (Z.log2 a - 52) 0); [exact Ha |].
  apply Z.shiftl_nonneg.
  assert (0 <= Z.shiftr a (Z.log2 a - 52)) by (apply Z.shiftr_nonneg; lia).
  destruct (_ || _); lia.
Qed.

Lemma toDouble_sameSign (z : Z) : sameSign z (toDouble z).
Proof.
  unfold toDouble, sameSign.
  pose proof (roundMantissa_nonneg (Z.abs z) (Z.abs_nonneg z)) as Hm.
  destruct (Z.leb_spec (2 ^ 1024) (roundMantissa (Z.abs z))) as [Hbig|Hsmall].
  - assert (z <> 0) as Hz.
    { intros ->. vm_compute in Hbig. by apply Hbig. }
    destruct (Z.ltb_spec z 0); lia.
  - split; intros Hz.
    + destruct (Z.sgn_spec z) as [[? ->]|[[? ->]|[? ->]]]; lia.
    + destruct (Z.sgn_spec z) as [[? ->]|[[? ->]|[? ->]]]; lia.
Qed.

(** X3. On a positive input the basis points never have the opposite
    sign of the raw profit, and a profit or loss of less than one basis
    point is reported as 0: the division truncates toward zero, a small
    loss is not rounded down to -1. *)
Theorem safePctBps_sign_and_truncation (pnl input : Z) :
  (0 < input -> sameSign pnl (safePctBps pnl input)) /\
  (input <> 0 -> Z.abs (pnl * 10000) < Z.abs input ->
   safePctBps pnl input = JInt 0).
Proof.
  unfold safePctBps, Number_of_BigInt. split.
  - intros Hin. destruct (Z.eqb_spec input 0) as [->|_]; [lia |].
    pose proof (toDouble_sameSign (Z.quot (pnl * 10000) input)) as Hs.
    assert (0 <= pnl -> 0 <= Z.quot (pnl * 10000) input) as Hpos.
    { intros Hp. apply Z.quot_pos; lia. }
    assert (pnl <= 0 -> Z.quot (pnl * 10000) input <= 0) as Hneg.
    { intros Hp.
      replace (pnl * 10000) with (- (- pnl * 10000)) by lia.
      rewrite Z.quot_opp_l by lia.
      assert (0 <= Z.quot (- pnl * 10000) input) by (apply Z.quot_pos; lia). lia. }
    unfold sameSign in *.
    destruct (toDouble _) as [m|[|]|]; lia.
  - intros Hne Hsmall. destruct (Z.eqb_spec input 0); [contradiction |].
    apply (Z.quot_small_iff _ _ Hne) in Hsmall. rewrite Hsmall. reflexivity.
Qed.

Lemma safePctBps_sign_and_truncation_witness :
  safePctBps (-3) 1000000 = JInt 0 /\ sameSign (-40) (safePctBps (-40) 1000).
Proof.
  destruct (safePctBps_sign_and_truncation (-3) 1000000) as [_ Hz].
  destruct (safePctBps_sign_and_truncation (-40) 1000) as [Hs _].
  split; [apply Hz; [lia | simpl; lia] | apply Hs; lia].
Defined.

Lemma roundMantissa_error (a : Z) :
  0 <= a -> Z.abs (roundMantissa a - a) * 2 ^ 53 <= a.
Proof.
  intros Ha. unfold roundMantissa.
  destruct (Z.leb_spec (Z.log2 a - 52) 0) as [He|He].
  { replace (a - a) with 0 by lia. simpl. lia. }
  set (e := Z.log2 a - 52) in *.
  assert (0 < a) as Hpos.
  { destruct (Z.eq_dec a 0) as [->|]; [vm_compute in He; discriminate | lia]. }
  destruct (Z.log2_spec a Hpos) as [Hlo _].
  replace (Z.log2 a) with (e + 52) in Hlo by (unfold e; lia).
  rewrite Z.shiftr_div_pow2, !Z.shiftl_mul_pow2 by lia.
  rewrite Z.mul_1_l.
  assert (2 ^ e = 2 * 2 ^ (e - 1)) as He2.
  { replace e with (Z.succ (e - 1)) at 1 by lia. apply Z.pow_succ_r. lia. }
  assert (2 ^ (e + 52) = 2 ^ (e - 1) * 2 ^ 53) as He52.
  { rewrite <- Z.pow_add_r by lia. f_equal. lia. }
  assert (0 < 2 ^ (e - 1)) as Hh by (apply Z.pow_pos_nonneg; lia).
  pose proof (Z.div_mod a (2 ^ e) ltac:(lia)) as Hdm.
  pose proof (Z.mod_pos_bound a (2 ^ e) ltac:(lia)) as Hmod.
  set (q := a / 2 ^ e) in *. set (h := 2 ^ (e - 1)) in *.
  set (r := a - q * 2 ^ e).
  assert (r = a mod 2 ^ e) as Hr by (unfold r; lia).
  assert (0 <= r < 2 * h) as Hrb by lia.
  assert (Z.abs ((if (h <? r) || (r =? h) && Z.odd q then q + 1 else q) * 2 ^ e - a)
          <= h) as Hdiff.
  { destruct (Z.ltb_spec h r); simpl.
    - replace ((q + 1) * 2 ^ e - a) with (2 * h - r) by (unfold r; lia). lia.
    - destruct (Z.eqb_spec r h); simpl.
      + destruct (Z.odd q).
        * replace ((q + 1) * 2 ^ e - a) with (2 * h - r) by (unfold r; lia). lia.
        * replace (q * 2 ^ e - a) with (- r) by (unfold r; lia). lia.
      + replace (q * 2 ^ e - a) with (- r) by (unfold r; lia). lia. }
  fold r. nia.
Qed.

(** X4. When the input is not 0 and the exact quotient q = rawProfit *
    10000 / input has magnitude below 2^1023, the basis points are a finite
    Number whose distance from q is at most |q| / 2^53. *)
Theorem safePctBps_relative_error (pnl input : Z) :
  input <> 0 ->
  Z.abs (Z.quot (pnl * 10000) input) < 2 ^ 1023 ->
  exists b,
    safePctBps pnl input = JInt b /\
    Z.abs (b - Z.quot (pnl * 10000) input) * 2 ^ 53
    <= Z.abs (Z.quot (pnl * 10000) input).
Proof.
  intros Hne Hq. unfold safePctBps, Number_of_BigInt, toDouble.
  destruct (Z.eqb_spec input 0); [contradiction |].
  set (q := Z.quot (pnl * 10000) input) in *.
  pose proof (roundMantissa_error (Z.abs q) (Z.abs_nonneg q)) as Herr.
  pose proof (roundMantissa_nonneg (Z.abs q) (Z.abs_nonneg q)) as Hnn.
  set (m := roundMantissa (Z.abs q)) in *.
  assert (2 ^ 1024 = 2 * 2 ^ 1023) as E1024 by reflexivity.
  assert (0 < 2 ^ 53) as E53 by reflexivity.
  assert (m <= 2 * Z.abs q) as Hm by nia.
  destruct (Z.leb_spec (2 ^ 1024) m); [lia |].
  eexists. split; [reflexivity |].
  replace (Z.abs (Z.sgn q * m - q)) with (Z.abs (m - Z.abs q)); [exact Herr |].
  destruct (Z.sgn_spec q) as [[? ->]|[[? ->]|[? ->]]]; lia.
Qed.

Lemma safePctBps_relative_error_witness :
  exists b,
    safePctBps (2 ^ 53 + 1) 10000 = JInt b /\
    Z.abs (b - (2 ^ 53 + 1)) * 2 ^ 53 <= 2 ^ 53 + 1.
Proof.
  destruct (safePctBps_relative_error (2 ^ 53 + 1) 10000) as (b & Hb & Herr);
    [lia | vm_compute; reflexivity |].
  exists b. split; [exact Hb |]. exact Herr.
Defined.

(** ** The report *)

(** X5. The ranked list really is the top of the batch: the batch is the
    ranked list together with the entries left out, and no entry left out
    has a larger raw profit than a reported one; in particular the first
    reported entry has the largest raw profit of the batch. *)
Theorem rank_leaves_out_the_smallest (batch : list Scored) :
  exists rest,
    rank batch ++ rest ≡ₚ batch /\
    (forall x y, x ∈ rank batch -> y ∈ rest -> sPnl y <= sPnl x) /\
    (forall x more y, rank batch = x :: more -> y ∈ batch -> sPnl y <= sPnl x).
Proof.
  assert (rank batch = take 10 (sortBy (cmpDesc sPnl) batch)) as Hr.
  { unfold rank. by rewrite filter_all. }
  pose proof (sortBy_descending sPnl batch) as Hsorted.
  pose proof (sortBy_perm sPnl batch) as Hperm.
  set (sorted := sortBy (cmpDesc sPnl) batch) in *.
  exists (drop 10 sorted). rewrite Hr. split; [| split].
  - by rewrite take_drop.
  - intros x y Hx Hy. unfold descending in Hsorted.
    rewrite <- (take_drop 10 sorted) in Hsorted.
    apply (StronglySorted_app_1_elem_of _ _ _ _ _ Hsorted Hx Hy).
  - intros x more y Hx Hy. rewrite <- Hperm in Hy.
    destruct sorted as [|x0 sorted']; [discriminate |].
    simpl in Hx. injection Hx as -> _.
    apply StronglySorted_inv in Hsorted as [_ Hall].
    apply elem_of_cons in Hy as [->|Hy]; [lia |].
    rewrite Forall_forall in Hall. by apply Hall.
Qed.

Lemma rank_leaves_out_the_smallest_witness :
  sPnl {| sRouteType := "TRI"; sSize := "a"; sLegs := ""; sIn := 0; sOut := 1;
          sPnl := 1; sBps := JInt 0; sGasWBNB := 0; sFlashFee := 0;
          sNetPnl := 1; sNote := "" |}
  <= sPnl {| sRouteType := "TRI"; sSize := "b"; sLegs := ""; sIn := 0; sOut := 3;
             sPnl := 3; sBps := JInt 0; sGasWBNB := 0; sFlashFee := 0;
             sNetPnl := 3; sNote := "" |}.
Proof.
  destruct (rank_leaves_out_the_smallest
              [ {| sRouteType := "TRI"; sSize := "a"; sLegs := ""; sIn := 0; sOut := 1;
                   sPnl := 1; sBps := JInt 0; sGasWBNB := 0; sFlashFee := 0;
                   sNetPnl := 1; sNote := "" |};
                {| sRouteType := "TRI"; sSize := "b"; sLegs := ""; sIn := 0; sOut := 3;
                   sPnl := 3; sBps := JInt 0; sGasWBNB := 0; sFlashFee := 0;
                   sNetPnl := 3; sNote := "" |} ]) as (rest & _ & _ & Hmax).
  apply (Hmax _ _ _ eq_refl). apply elem_of_cons. by left.
Defined.

(** ** The row format *)

Lemma commas_concat (l : list string) :
  commas (String.concat "," l)
  = (pred (length l) + list_sum (map commas l))%nat.
Proof.
  unfold commas. induction l as [|x [|y l] IH]; [reflexivity | simpl; lia |].
  change (String.concat "," (x :: y :: l))
    with (x +:+ "," +:+ String.concat "," (y :: l)).
  rewrite !countChar_app, IH. simpl. lia.
Qed.

(** X6. A row is written field by field in the order of the headers: a
    header that the row lacks gives an empty field, keys of the row that
    are no header are ignored, and the line has one separator less than
    there are headers, plus the commas inside the values themselves. *)
Theorem joinFields_by_header (headers : list string) (row : gmap string string) :
  commas (joinFields headers row)
  = (pred (length headers)
     + list_sum (map (fun h => commas (default "" (row !! h))) headers))%nat /\
  joinFields headers ∅ = String.concat "," (map (fun _ => "") headers) /\
  (forall k v, k ∉ headers ->
     joinFields headers (<[k:=v]> row) = joinFields headers row) /\
  (forall h v rest, h ∉ rest ->
     joinFields (h :: rest) (<[h:=v]> row)
     = String.concat "," (v :: map (fun h' => default "" (row !! h')) rest)).
Proof.
  unfold joinFields. split; [| split; [| split]].
  - rewrite commas_concat, length_map, map_map. reflexivity.
  - reflexivity.
  - intros k v Hk. apply (f_equal (String.concat ",")). apply map_ext_in.
    intros h Hh. rewrite lookup_insert_ne; [reflexivity |].
    intros ->. apply Hk. by apply list_elem_of_In.
  - intros h v rest Hh. simpl. rewrite lookup_insert_eq. simpl.
    apply (f_equal (fun l => String.concat "," (v :: l))). apply map_ext_in.
    intros h' Hh'. rewrite lookup_insert_ne; [reflexivity |].
    intros ->. apply Hh. by apply list_elem_of_In.
Qed.

Lemma joinFields_by_header_witness :
  joinFields ["a"; "b"; "c"] (<["zz" := "9"]> (<["b" := "x"]> ∅)) = ",x,".
Proof.
  destruct (joinFields_by_header ["a"; "b"; "c"] (<["b" := "x"]> ∅))
    as (_ & _ & Hextra & _).
  rewrite Hextra; [reflexivity |].
  intros H. repeat (apply elem_of_cons in H as [H|H]; [discriminate |]).
  by apply elem_of_nil in H.
Defined.

Lemma parse_bigintToString (z : Z) : parseBigInt (bigintToString z) = Some z.
Proof.
  unfold parseBigInt, bigintToString.
  rewrite NilZero.isi.
  - simpl. f_equal. apply DecimalZ.of_to.
  - destruct z; simpl; try discriminate.
    intros [= H]. by apply (DecimalPos.Unsigned.to_uint_nonnil p).
  - destruct z; simpl; try discriminate.
    intros [= H]. by apply (DecimalPos.Unsigned.to_uint_nonnil p).
Qed.

(** X7. A successful attempt whose scoring succeeds pushes the scored
    result on the batch and appends one row for it: the note is empty, the
    route type, size label and legs are those of the result, and each of
    the six integer fields is the decimal text of the scored value, which
    reads back as that value. When a [BigInt(...)] conversion of the
    scoring throws, the attempt throws and nothing is written. *)
Theorem success_attempt_persists_score rt (b : Block) cfg gasPriceWei sz sizeIn
    routeType legs rIn rOut batch w :
  (forall s,
     score cfg gasPriceWei sz sizeIn routeType legs rIn rOut = Some s ->
     exists w' row,
       recordOutcome rt b cfg gasPriceWei sz sizeIn
         (Success routeType legs rIn rOut) batch w = (inr (batch ++ [s]), w') /\
       row = successRow rt (isoTime rt (clock w)) s /\
       writes w' = writes w
                   ++ match csvFile w with
                      | Some _ => []
                      | None => [WHeader headerLine]
                      end
                   ++ [WRow (joinFields CSV_HEADERS row +:+ newline)] /\
       row !! "note" = Some "" /\
       row !! "routeType" = Some routeType /\
       row !! "size" = Some sz /\
       row !! "legs" = Some legs /\
       row !! "bps" = Some (numberToString rt (sBps s)) /\
       (row !! "in" ≫= parseBigInt) = Some rIn /\
       (row !! "out" ≫= parseBigInt) = Some rOut /\
       (row !! "pnl" ≫= parseBigInt) = Some (rOut - rIn) /\
       (row !! "gasCostWBNB" ≫= parseBigInt) = Some (sGasWBNB s) /\
       (row !! "flashFeeWBNB" ≫= parseBigInt) = Some (sFlashFee s) /\
       (row !! "netPnl" ≫= parseBigInt) = Some (rOut - rIn - sGasWBNB s - sFlashFee s)) /\
  (score cfg gasPriceWei sz sizeIn routeType legs rIn rOut = None ->
   recordOutcome rt b cfg gasPriceWei sz sizeIn
     (Success routeType legs rIn rOut) batch w = (inl rangeError, w)).
Proof.
  split.
  - intros s Hs.
    pose proof (score_fields _ _ _ _ _ _ _ _ _ Hs)
      as (Hi & Ho & Hp & _ & _ & _ & Hn).
    assert (sRouteType s = routeType /\ sSize s = sz /\ sLegs s = legs)
      as (Hrt & Hsz & Hlegs).
    { unfold score in Hs.
      destruct (gasCostInWBNB _ _); [| discriminate].
      destruct (flashloanFeeInWBNB _ _); [| discriminate].
      by injection Hs as <-. }
    simpl. rewrite Hs.
    destruct (appendCsvRow_writes (successRow rt (isoTime rt (clock w)) s)
                (withClock (S (clock w)) w)) as (w' & Hrun & _ & Hws).
    exists w', (successRow rt (isoTime rt (clock w)) s).
    split.
    { unfold bind, nowIso. simpl. by rewrite Hrun. }
    split; [reflexivity |]. split; [exact Hws |].
    split; [reflexivity |].
    split; [by rewrite <- Hrt |]. split; [by rewrite <- Hsz |].
    split; [by rewrite <- Hlegs |]. split; [reflexivity |].
    change (successRow rt (isoTime rt (clock w)) s !! "in")
      with (Some (bigintToString (sIn s))).
    change (successRow rt (isoTime rt (clock w)) s !! "out")
      with (Some (bigintToString (sOut s))).
    change (successRow rt (isoTime rt (clock w)) s !! "pnl")
      with (Some (bigintToString (sPnl s))).
    change (successRow rt (isoTime rt (clock w)) s !! "gasCostWBNB")
      with (Some (bigintToString (sGasWBNB s))).
    change (successRow rt (isoTime rt (clock w)) s !! "flashFeeWBNB")
      with (Some (bigintToString (sFlashFee s))).
    change (successRow rt (isoTime rt (clock w)) s !! "netPnl")
      with (Some (bigintToString (sNetPnl s))).
    simpl. rewrite !parse_bigintToString, Hi, Ho, Hn, Hp. repeat split.
  - intros Hs. simpl. by rewrite Hs.
Qed.

Lemma success_attempt_persists_score_witness :
  exists w',
    recordOutcome Sample.rt CrossBlock Sample.cfg 1 "0.000000000000001" 1000
      (Success "V2→V3" "V2->V3:WBNB->USDT->WBNB" 1000 1040) [] (Sample.start None)
    = (inr [ {| sRouteType := "V2→V3"; sSize := "0.000000000000001";
                sLegs := "V2->V3:WBNB->USDT->WBNB"; sIn := 1000; sOut := 1040;
                sPnl := 40; sBps := JInt 400; sGasWBNB := 5; sFlashFee := 1;
                sNetPnl := 34; sNote := "" |} ], w').
Proof.
  destruct (success_attempt_persists_score Sample.rt CrossBlock Sample.cfg 1
              "0.000000000000001" 1000 "V2→V3" "V2->V3:WBNB->USDT->WBNB"
              1000 1040 [] (Sample.start None)) as [Hok _].
  destruct (Hok _ eq_refl) as (w' & row & Hrun & _).
  exists w'. exact Hrun.
Defined.

(** ** Rendering amounts *)

Lemma split_nonempty sep s : split sep s <> [].
Proof.
  destruct s as [|c s]; simpl; [discriminate |].
  destruct (Ascii.eqb c sep); [discriminate |].
  destruct (split sep s); discriminate.
Qed.

Lemma concat_cons2 sep x y (l : list string) :
  String.concat sep (x :: y :: l) = x +:+ sep +:+ String.concat sep (y :: l).
Proof. reflexivity. Qed.

(** Joining what [split] gives returns the string. *)
Lemma concat_split sep s : String.concat (String sep "") (split sep s) = s.
Proof.
  induction s as [|c s IH]; simpl; [reflexivity |].
  pose proof (split_nonempty sep s) as Hne.
  destruct (Ascii.eqb_spec c sep) as [->|Hc].
  - destruct (split sep s) as [|p ps]; [contradiction |].
    rewrite concat_cons2, IH. reflexivity.
  - destruct (split sep s) as [|p ps]; [contradiction |].
    destruct ps as [|p' ps].
    + simpl in *. by rewrite IH.
    + rewrite concat_cons2. rewrite concat_cons2 in IH. rewrite <- IH. reflexivity.
Qed.

Lemma split_plain sep s : countChar sep s = O -> split sep s = [s].
Proof.
  induction s as [|c s IH]; simpl; [reflexivity |].
  destruct (Ascii.eqb_spec c sep); [discriminate |].
  intros H. by rewrite IH.
Qed.

Lemma split_app sep a b :
  countChar sep a = O -> split sep (a +:+ String sep b) = a :: split sep b.
Proof.
  induction a as [|c a IH]; simpl.
  - intros _. by rewrite Ascii.eqb_refl.
  - destruct (Ascii.eqb_spec c sep); [discriminate |].
    intros H. by rewrite IH.
Qed.

Lemma append_empty_r (s : string) : s +:+ "" = s.
Proof.
  induction s as [|c s IH]; [reflexivity |].
  change (String c (s +:+ "") = String c s). by rewrite IH.
Qed.

Lemma substring0_all n s : (String.length s <= n)%nat -> String.substring 0 n s = s.
Proof.
  revert s. induction n as [|n IH]; intros [|c s]; simpl; try reflexivity; try lia.
  intros H. f_equal. apply IH. lia.
Qed.

Lemma substring0_split n s :
  s = String.substring 0 n s +:+ String.substring n (String.length s - n) s.
Proof.
  revert s. induction n as [|n IH]; intros s.
  - rewrite Nat.sub_0_r, (substring0_all (String.length s) s) by lia.
    by destruct s.
  - destruct s as [|c s]; simpl; [reflexivity |].
    change (String c s
            = String c (String.substring 0 n s
                        +:+ String.substring n (String.length s - n) s)).
    f_equal. apply IH.
Qed.

(** X8. [bnToFloatStr] gives "0" for a missing amount; otherwise its
    result is a prefix of the formatted amount - digits are cut, never
    rounded. For a formatted amount "int.frac" the result is "int" when no
    fractional digit is asked for, and else "int." followed by the first
    maxDp digits of frac (at most maxDp of them); a formatted amount
    without a point is returned whole. *)
Theorem bnToFloatStr_truncates (formatUnits : Z -> Z -> string)
    (decimals : Z) (maxDp : nat) :
  bnToFloatStr formatUnits None decimals maxDp = "0" /\
  (forall v, exists rest,
     formatUnits v decimals
     = bnToFloatStr formatUnits (Some v) decimals maxDp +:+ rest) /\
  (forall v int frac,
     formatUnits v decimals = int +:+ "." +:+ frac ->
     countChar "." int = O -> countChar "." frac = O ->
     bnToFloatStr formatUnits (Some v) decimals maxDp
     = (if (maxDp =? 0)%nat then int else int +:+ "." +:+ slice0 maxDp frac) /\
     (String.length (slice0 maxDp frac) <= maxDp)%nat) /\
  (forall v, countChar "." (formatUnits v decimals) = O ->
     maxDp <> O ->
     bnToFloatStr formatUnits (Some v) decimals maxDp = formatUnits v decimals).
Proof.
  split; [reflexivity |]. split; [| split].
  - intros v. unfold bnToFloatStr.
    set (s := formatUnits v decimals).
    pose proof (concat_split "." s) as Hs.
    pose proof (split_nonempty "." s) as Hne.
    destruct (split "." s) as [|int [|frac more]]; [contradiction | |].
    + simpl in *. subst int.
      destruct (maxDp =? 0)%nat; [exists ""; by rewrite append_empty_r |].
      destruct (maxDp <? 0)%nat eqn:Hlt; [by apply Nat.ltb_lt in Hlt; lia |].
      exists "". by rewrite append_empty_r.
    + rewrite concat_cons2 in Hs. simpl nth.
      destruct (maxDp =? 0)%nat; [by eexists |].
      destruct (maxDp <? String.length frac)%nat.
      * assert (exists tail, String.concat "." (frac :: more) = frac +:+ tail)
          as [tail Htail].
        { destruct more; [exists ""; simpl; by rewrite append_empty_r |].
          rewrite concat_cons2. by eexists. }
        rewrite Htail in Hs.
        exists (String.substring maxDp (String.length frac - maxDp) frac +:+ tail).
        rewrite <- Hs at 1. unfold slice0.
        rewrite (substring0_split maxDp frac) at 1.
        by rewrite !append_assoc.
      * exists "". by rewrite append_empty_r.
  - intros v int frac Hs Hint Hfrac. unfold bnToFloatStr. rewrite Hs.
    change (int +:+ "." +:+ frac) with (int +:+ String "." frac).
    rewrite (split_app "." int frac Hint), (split_plain "." frac Hfrac). simpl nth.
    split; [| apply length_substring0].
    destruct (maxDp =? 0)%nat; [reflexivity |].
    destruct (Nat.ltb_spec maxDp (String.length frac)); [reflexivity |].
    unfold slice0. by rewrite substring0_all.
  - intros v Hs Hm. unfold bnToFloatStr.
    rewrite (split_plain "." _ Hs). simpl nth.
    destruct (Nat.eqb_spec maxDp 0); [contradiction |].
    destruct (maxDp <? 0)%nat eqn:Hlt; [by apply Nat.ltb_lt in Hlt; lia |].
    reflexivity.
Qed.

Lemma bnToFloatStr_truncates_witness :
  bnToFloatStr Render.formatUnits (Some 1999999999999999999) 18 8 = "1.99999999".
Proof.
  destruct (bnToFloatStr_truncates Render.formatUnits 18 8) as (_ & _ & Hcut & _).
  destruct (Hcut 1999999999999999999 "1" "999999999999999999"
              eq_refl eq_refl eq_refl) as [-> _].
  reflexivity.
Defined.

(** ** Start-up *)

Lemma findIndex_absent x (args : list string) : x ∉ args -> findIndex x args = -1.
Proof.
  induction args as [|a args IH]; simpl; [reflexivity |].
  intros Hx. apply not_elem_of_cons in Hx as [Hne Hx].
  destruct (String.eqb_spec a x); [congruence |].
  rewrite (IH Hx). reflexivity.
Qed.

Lemma findIndex_first x (pre post : list string) :
  x ∉ pre -> findIndex x (pre ++ x :: post) = Z.of_nat (length pre).
Proof.
  induction pre as [|a pre IH]; simpl.
  - intros _. by rewrite String.eqb_refl.
  - intros Hx. apply not_elem_of_cons in Hx as [Hne Hx].
    destruct (String.eqb_spec a x); [congruence |].
    rewrite (IH Hx). destruct (Z.ltb_spec (Z.of_nat (length pre)) 0); lia.
Qed.

(** X9. The configuration path is the default when "--config" is not
    among the arguments, and otherwise the argument that follows its first
    occurrence; when "--config" comes last there is no such argument and
    the path is undefined, not the default. *)
Theorem configPath_cases (defaultPath : string) :
  (forall args, "--config" ∉ args -> configPath args defaultPath = Some defaultPath) /\
  (forall pre v post, "--config" ∉ pre ->
     configPath (pre ++ "--config" :: v :: post) defaultPath = Some v) /\
  (forall pre, "--config" ∉ pre ->
     configPath (pre ++ ["--config"]) defaultPath = None).
Proof.
  unfold configPath. split; [| split].
  - intros args Hx. by rewrite (findIndex_absent _ _ Hx).
  - intros pre v post Hx. rewrite (findIndex_first _ _ _ Hx).
    destruct (Z.leb_spec 0 (Z.of_nat (length pre))); [| lia].
    replace (Z.to_nat (Z.of_nat (length pre) + 1)) with (length pre + 1)%nat by lia.
    rewrite lookup_app_r by lia.
    by replace (length pre + 1 - length pre)%nat with 1%nat by lia.
  - intros pre Hx. rewrite (findIndex_first _ _ _ Hx).
    destruct (Z.leb_spec 0 (Z.of_nat (length pre))); [| lia].
    apply lookup_ge_None. rewrite length_app. simpl. lia.
Qed.

Lemma configPath_cases_witness :
  configPath ["--verbose"; "--config"; "my.json"; "--config"; "other.json"] "d"
  = Some "my.json" /\
  configPath ["--verbose"; "--config"] "d" = None.
Proof.
  destruct (configPath_cases "d") as (_ & Hnext & Hlast).
  split.
  - apply (Hnext ["--verbose"] "my.json" ["--config"; "other.json"]).
    intros H. apply elem_of_cons in H as [H|H]; [discriminate |].
    by apply elem_of_nil in H.
  - apply (Hlast ["--verbose"]).
    intros H. apply elem_of_cons in H as [H|H]; [discriminate |].
    by apply elem_of_nil in H.
Defined.

(** ** Adapters and evaluators *)

(** X10. When the primary call form of the V3 adapter answers, the quote
    is the amount of the answer, whatever its shape, and that call is the
    only one issued: the fallback form is not tried. *)
Theorem quoteV3Single_primary chain tokenIn tokenOut fee amountIn w out :
  quoteExactInputSingle chain (length (trace w)) tokenIn tokenOut fee amountIn
    = inr out ->
  quoteV3Single chain tokenIn tokenOut fee amountIn w
  = (inr (quoterAmount out),
     withTrace (trace w ++ [QuoteExactInputSingle tokenIn tokenOut fee amountIn]) w) /\
  (forall z rest, out = OutBigint z \/ out = OutArray z rest \/ out = OutNamed z ->
     quoterAmount out = z).
Proof.
  intros H1. split.
  - unfold quoteV3Single, tryCatch, bind, rpc, ret. simpl. by rewrite H1.
  - intros z rest [->|[->| ->]]; reflexivity.
Qed.

Lemma quoteV3Single_primary_witness :
  fst (quoteV3Single
         {| getAmountsOut := getAmountsOut Sample.deadChain;
            quoteExactInputSingle := fun _ _ _ _ a => inr (OutNamed (a + 7));
            quoteExactInput := quoteExactInput Sample.deadChain;
            quotePotentialSwap := quotePotentialSwap Sample.deadChain |}
         "0xT" "0xW" 500 1050 (Sample.start None))
  = inr 1057.
Proof.
  destruct (quoteV3Single_primary
              {| getAmountsOut := getAmountsOut Sample.deadChain;
                 quoteExactInputSingle := fun _ _ _ _ a => inr (OutNamed (a + 7));
                 quoteExactInput := quoteExactInput Sample.deadChain;
                 quotePotentialSwap := quotePotentialSwap Sample.deadChain |}
              "0xT" "0xW" 500 1050 (Sample.start None) (OutNamed 1057) eq_refl)
    as [-> _].
  reflexivity.
Defined.

Section Keeping.

Context {X : Type} (proj : World -> X).

Lemma keeps_ret {A} (a : A) : keeps proj (ret a).
Proof. by intros w. Qed.

Lemma keeps_throw {A} e : keeps proj (@throw A e).
Proof. by intros w. Qed.

Lemma keeps_bind {A B} (m : M A) (k : A -> M B) :
  keeps proj m -> (forall a, keeps proj (k a)) -> keeps proj (bind m k).
Proof.
  intros Hm Hk w. unfold bind. specialize (Hm w).
  destruct (m w) as [[e|a] w1]; simpl in *; [done |].
  by rewrite (Hk a w1).
Qed.

Lemma keeps_tryCatch {A} (m : M A) (h : JsErr -> M A) :
  keeps proj m -> (forall e, keeps proj (h e)) -> keeps proj (tryCatch m h).
Proof.
  intros Hm Hh w. unfold tryCatch. specialize (Hm w).
  destruct (m w) as [[e|a] w1]; simpl in *; [| done].
  by rewrite (Hh e w1).
Qed.

Lemma keeps_forEach {A S} (l : list A) (body : A -> S -> M S) :
  (forall a s, keeps proj (body a s)) -> forall s, keeps proj (forEach l body s).
Proof.
  intros Hbody. induction l as [|a l IH]; intros s; simpl.
  - apply keeps_ret.
  - apply keeps_bind; [apply Hbody | intros s'; apply IH].
Qed.

(** A computation made of calls to the chain keeps what calls do not
    touch. *)
Hypothesis proj_trace : forall t w, proj (withTrace t w) = proj w.

Lemma keeps_rpc {A} c (answer : nat -> JsErr + A) : keeps proj (rpc c answer).
Proof. intros w. apply proj_trace. Qed.

Lemma keeps_quoteLeg chain leg amt : keeps proj (quoteLeg chain leg amt).
Proof.
  destruct leg; simpl; unfold quoteV2, quoteV3Single, quoteWombat;
    repeat first [ apply keeps_tryCatch; [| intros ?]
                 | apply keeps_bind; [| intros ?]
                 | apply keeps_rpc | apply keeps_ret | apply keeps_throw ].
Qed.

Lemma keeps_runLegs chain ls : forall amt, keeps proj (runLegs chain ls amt).
Proof.
  induction ls as [|l ls IH]; intros amt; simpl; [apply keeps_ret |].
  apply keeps_bind; [apply keeps_quoteLeg | intros ?; apply IH].
Qed.

Lemma keeps_evalRoute chain size cfg r : keeps proj (evalRoute chain size cfg r).
Proof.
  intros w. rewrite evalRoute_runLegs.
  pose proof (keeps_runLegs chain (routeLegs cfg r) size w) as H.
  by destruct (runLegs _ _ _ w) as [[e|out] w1].
Qed.

End Keeping.

Lemma quoteLeg_calls chain leg amt w :
  exists cs,
    trace (snd (quoteLeg chain leg amt w)) = trace w ++ cs /\
    (1 <= length cs <= legCalls leg)%nat.
Proof.
  destruct leg as [path|tokenIn tokenOut fee|fromToken toToken]; simpl.
  - exists [GetAmountsOut amt path].
    unfold quoteV2, tryCatch, bind, rpc, ret, throw. simpl.
    destruct (getAmountsOut _ _ _ _); simpl; split; try reflexivity; lia.
  - unfold quoteV3Single, tryCatch, bind, rpc, ret, throw. simpl.
    destruct (quoteExactInputSingle _ _ _ _ _ _); simpl.
    + exists [QuoteExactInputSingle tokenIn tokenOut fee amt;
              QuoteExactInput tokenIn fee tokenOut amt].
      destruct (quoteExactInput _ _ _ _ _ _); simpl;
        (split; [by rewrite <- app_assoc | lia]).
    + exists [QuoteExactInputSingle tokenIn tokenOut fee amt].
      split; [reflexivity | simpl; lia].
  - exists [QuotePotentialSwap fromToken toToken amt].
    unfold quoteWombat, tryCatch, bind, rpc, ret, throw. simpl.
    destruct (quotePotentialSwap _ _ _ _ _); simpl; split; try reflexivity; lia.
Qed.

Lemma runLegs_calls chain ls : forall amt w,
  exists cs,
    trace (snd (runLegs chain ls amt w)) = trace w ++ cs /\
    (length cs <= list_sum (map legCalls ls))%nat /\
    (ls <> [] -> 1 <= length cs)%nat.
Proof.
  induction ls as [|l ls IH]; intros amt w; simpl.
  - exists []. rewrite app_nil_r. simpl. repeat split; [lia | done].
  - unfold bind.
    destruct (quoteLeg_calls chain l amt w) as (cs1 & Ht1 & Hlo & Hhi).
    destruct (quoteLeg chain l amt w) as [[e|out] w1]; simpl in *.
    + exists cs1. repeat split; [exact Ht1 | lia | lia].
    + destruct (IH out w1) as (cs2 & Ht2 & Hle & _).
      exists (cs1 ++ cs2). rewrite Ht2, Ht1, app_assoc, length_app.
      repeat split; lia.
Qed.

(** X11. A route evaluation never throws: it returns an outcome tagged
    with the route's type, a failure or a success for the evaluated size.
    It issues at least one call and at most three (exactly one for the
    single-DEX triangle), and it touches neither the clock, the CSV file
    nor the console. *)
Theorem evalRoute_contained chain size cfg (r : Route) w :
  exists o w' calls,
    evalRoute chain size cfg r w = (inr o, w') /\
    outcomeOf r size o /\
    trace w' = trace w ++ calls /\
    (1 <= length calls <= 3)%nat /\
    (r = TriangleV2 -> length calls = 1%nat) /\
    clock w' = clock w /\ csvFile w' = csvFile w /\
    writes w' = writes w /\ console w' = console w.
Proof.
  pose proof (keeps_evalRoute clock (fun _ _ => eq_refl) chain size cfg r w) as Hc.
  pose proof (keeps_evalRoute csvFile (fun _ _ => eq_refl) chain size cfg r w) as Hf.
  pose proof (keeps_evalRoute writes (fun _ _ => eq_refl) chain size cfg r w) as Hw.
  pose proof (keeps_evalRoute console (fun _ _ => eq_refl) chain size cfg r w) as Ho.
  destruct (runLegs_calls chain (routeLegs cfg r) size w) as (cs & Ht & Hle & Hge).
  rewrite evalRoute_runLegs in *.
  assert (routeLegs cfg r <> []
          /\ (list_sum (map legCalls (routeLegs cfg r)) <= 3)%nat
          /\ (r = TriangleV2 ->
              list_sum (map legCalls (routeLegs cfg r)) = 1%nat)) as (Hne & H3 & H1).
  { destruct r as [dir| |variant]; simpl.
    - destruct (String.eqb dir "V2->V3"); simpl;
        repeat split; first [done | lia | intros [=]].
    - repeat split; first [done | lia].
    - destruct (String.eqb variant "A"); simpl;
        repeat split; first [done | lia | intros [=]]. }
  specialize (Hge Hne).
  destruct (runLegs chain (routeLegs cfg r) size w) as [[e|out] w1]; simpl in *.
  - exists (Failure (message e) (routeTag r)), w1, cs.
    repeat split; try assumption; try lia.
    + left. by eexists.
    + intros Hr. specialize (H1 Hr). lia.
  - exists (Success (routeTag r) (routeLabel r) size out), w1, cs.
    repeat split; try assumption; try lia.
    + right. by eexists.
    + intros Hr. specialize (H1 Hr). lia.
Qed.

Lemma quoteLeg_error chain leg amt w e w' :
  quoteLeg chain leg amt w = (inl e, w') ->
  exists text,
    message e = "V2 quote failed: " +:+ text \/
    message e = "V3 quote failed: " +:+ text \/
    message e = "Wombat quote failed: " +:+ text.
Proof.
  destruct leg as [path|tokenIn tokenOut fee|fromToken toToken]; simpl.
  - unfold quoteV2, tryCatch, bind, rpc, ret, throw. simpl.
    destruct (getAmountsOut _ _ _ _); simpl; intros [= <- _].
    eexists. left. reflexivity.
  - unfold quoteV3Single, tryCatch, bind, rpc, ret, throw. simpl.
    destruct (quoteExactInputSingle _ _ _ _ _ _); simpl; [| intros [=]].
    destruct (quoteExactInput _ _ _ _ _ _); simpl; intros [= <- _].
    eexists. right. left. reflexivity.
  - unfold quoteWombat, tryCatch, bind, rpc, ret, throw. simpl.
    destruct (quotePotentialSwap _ _ _ _ _); simpl; intros [= <- _].
    eexists. right. right. reflexivity.
Qed.

Lemma runLegs_error chain ls : forall amt w e w',
  runLegs chain ls amt w = (inl e, w') ->
  exists text,
    message e = "V2 quote failed: " +:+ text \/
    message e = "V3 quote failed: " +:+ text \/
    message e = "Wombat quote failed: " +:+ text.
Proof.
  induction ls as [|l ls IH]; intros amt w e w'; simpl; [intros [=] |].
  unfold bind. destruct (quoteLeg chain l amt w) as [[e0|out] w1] eqn:Hl.
  - intros [= <- <-]. eapply quoteLeg_error, Hl.
  - apply IH.
Qed.

(** X12. The error of a failed outcome is the message of the adapter that
    failed: it starts with "V2 quote failed: ", "V3 quote failed: " or
    "Wombat quote failed: ", and the outcome is tagged with the route's
    type. *)
Theorem failure_names_the_adapter chain size cfg (r : Route) w error tag w' :
  evalRoute chain size cfg r w = (inr (Failure error tag), w') ->
  tag = routeTag r /\
  exists text,
    error = "V2 quote failed: " +:+ text \/
    error = "V3 quote failed: " +:+ text \/
    error = "Wombat quote failed: " +:+ text.
Proof.
  rewrite evalRoute_runLegs.
  destruct (runLegs chain (routeLegs cfg r) size w) as [[e|out] w1] eqn:Hrun;
    [| intros [=]].
  intros [= <- <- <-]. split; [reflexivity |].
  eapply runLegs_error, Hrun.
Qed.

Lemma failure_names_the_adapter_witness :
  exists text,
    "V3 quote failed: fallback reverted (fallback after: primary reverted)"
    = "V2 quote failed: " +:+ text \/
    "V3 quote failed: fallback reverted (fallback after: primary reverted)"
    = "V3 quote failed: " +:+ text \/
    "V3 quote failed: fallback reverted (fallback after: primary reverted)"
    = "Wombat quote failed: " +:+ text.
Proof.
  refine (proj2 (failure_names_the_adapter Sample.chain 1000 Sample.cfg
                   (CrossVersion "V3->V2") (Sample.start None) _ _ _ eq_refl)).
Defined.

Lemma length_snoc {A} (l : list A) (x : A) : length (l ++ [x]) = S (length l).
Proof. rewrite length_app. simpl. lia. Qed.

(** X13. When its three legs answer, a stable-hop triangle issues exactly
    three calls in order - V2 from the base asset to the first stable coin
    for the trade size, the Wombat pool between the stable coins for the
    amount the first call returned, V2 back to the base asset for the
    amount the pool returned, its haircut left aside - and succeeds with
    the trade size as input and the last amount of the third call as
    output. Variant "A" goes through USDT then USDC, any other variant
    through USDC then USDT. *)
Theorem evalTriangleWombat_chains chain size cfg (variant : string) w a1 o2 haircut a3 :
  let t := cfgTokens cfg in
  let wbnb := addr (WBNB t) in
  let first := if String.eqb variant "A" then addr (USDT t) else addr (USDC t) in
  let second := if String.eqb variant "A" then addr (USDC t) else addr (USDT t) in
  let n := length (trace w) in
  getAmountsOut chain n size [wbnb; first] = inr a1 ->
  quotePotentialSwap chain (S n) first second (lastAmount a1) = inr (o2, haircut) ->
  getAmountsOut chain (S (S n)) o2 [second; wbnb] = inr a3 ->
  evalTriangleWombat chain size cfg variant w
  = (inr (Success (wombatRouteType variant) (routeLabel (TriangleWombat variant))
                  size (lastAmount a3)),
     withTrace (trace w ++ [GetAmountsOut size [wbnb; first];
                            QuotePotentialSwap first second (lastAmount a1);
                            GetAmountsOut o2 [second; wbnb]]) w).
Proof.
  intros t wbnb first second n H1 H2 H3.
  unfold evalTriangleWombat, wombatRouteType, routeLabel.
  subst first second. fold t.
  destruct (String.eqb variant "A");
    unfold quoteV2, quoteWombat, tryCatch, bind, rpc, ret; simpl;
    fold n; fold wbnb; rewrite H1; simpl;
    rewrite length_snoc; fold n; rewrite H2; simpl;
    rewrite !length_snoc; fold n; rewrite H3; simpl;
    unfold withTrace; simpl; by rewrite <- !app_assoc.
Qed.

Lemma evalTriangleWombat_chains_witness :
  fst (evalTriangleWombat
         {| getAmountsOut := fun _ a _ => inr {| firstAmount := a; restAmounts := [a + 50] |};
            quoteExactInputSingle := quoteExactInputSingle Sample.deadChain;
            quoteExactInput := quoteExactInput Sample.deadChain;
            quotePotentialSwap := fun _ _ _ a => inr (a - 1, 1) |}
         1000 Sample.cfg "B" (Sample.start None))
  = inr (Success "TRI_WOMBAT_B"
           "TRI_WOMBAT_B:WBNB->USDC (V2)->USDT (Wombat)->WBNB (V2)" 1000 1099).
Proof.
  rewrite (evalTriangleWombat_chains
             {| getAmountsOut := fun _ a _ =>
                  inr {| firstAmount := a; restAmounts := [a + 50] |};
                quoteExactInputSingle := quoteExactInputSingle Sample.deadChain;
                quoteExactInput := quoteExactInput Sample.deadChain;
                quotePotentialSwap := fun _ _ _ a => inr (a - 1, 1) |}
             1000 Sample.cfg "B" (Sample.start None)
             {| firstAmount := 1000; restAmounts := [1050] |} 1049 1
             {| firstAmount := 1049; restAmounts := [1099] |}
             eq_refl eq_refl eq_refl).
  reflexivity.
Defined.

(** X14. When its two legs answer, a cross-version route issues exactly
    two calls, the second for the amount the first returned, and succeeds
    with the trade size as input and the second amount as output.
    Direction "V2->V3" quotes V2 then the V3 quoter at the USDT/WBNB fee
    tier; any other direction string quotes the V3 quoter at the WBNB/USDT
    fee tier then V2, is tagged "V3→V2", and keeps the direction string in
    its legs description. *)
Theorem evalCrossVersion_chains chain size cfg (dir : string) w :
  let t := cfgTokens cfg in
  let wbnb := addr (WBNB t) in
  let usdt := addr (USDT t) in
  let n := length (trace w) in
  (forall a1 out,
     dir = "V2->V3" ->
     getAmountsOut chain n size [wbnb; usdt] = inr a1 ->
     quoteExactInputSingle chain (S n) usdt wbnb (v3FeeTier_USDT_WBNB cfg)
       (lastAmount a1) = inr out ->
     evalCrossVersion chain size cfg dir w
     = (inr (Success "V2→V3" "V2->V3:WBNB->USDT->WBNB" size (quoterAmount out)),
        withTrace (trace w ++ [GetAmountsOut size [wbnb; usdt];
                               QuoteExactInputSingle usdt wbnb
                                 (v3FeeTier_USDT_WBNB cfg) (lastAmount a1)]) w)) /\
  (forall out a2,
     dir <> "V2->V3" ->
     quoteExactInputSingle chain n wbnb usdt (v3FeeTier_WBNB_USDT cfg) size
       = inr out ->
     getAmountsOut chain (S n) (quoterAmount out) [usdt; wbnb] = inr a2 ->
     evalCrossVersion chain size cfg dir w
     = (inr (Success "V3→V2" (dir +:+ ":WBNB->USDT->WBNB") size (lastAmount a2)),
        withTrace (trace w ++ [QuoteExactInputSingle wbnb usdt
                                 (v3FeeTier_WBNB_USDT cfg) size;
                               GetAmountsOut (quoterAmount out) [usdt; wbnb]]) w)).
Proof.
  intros t wbnb usdt n. split.
  - intros a1 out -> H1 H2.
    unfold evalCrossVersion, crossRouteType. simpl String.eqb. cbv iota.
    unfold quoteV2, quoteV3Single, tryCatch, bind, rpc, ret; simpl.
    fold t; fold wbnb; fold usdt; fold n. rewrite H1. simpl.
    rewrite length_snoc. fold n. rewrite H2. simpl.
    unfold withTrace; simpl. by rewrite <- !app_assoc.
  - intros out a2 Hdir H1 H2.
    unfold evalCrossVersion, crossRouteType.
    destruct (String.eqb_spec dir "V2->V3") as [|_]; [contradiction |].
    unfold quoteV2, quoteV3Single, tryCatch, bind, rpc, ret; simpl.
    fold t; fold wbnb; fold usdt; fold n. rewrite H1. simpl.
    rewrite length_snoc. fold n. rewrite H2. simpl.
    unfold withTrace; simpl. by rewrite <- !app_assoc.
Qed.

Lemma evalCrossVersion_chains_witness :
  fst (evalCrossVersion
         {| getAmountsOut := fun _ a _ => inr {| firstAmount := a; restAmounts := [a + 50] |};
            quoteExactInputSingle := fun _ _ _ _ a => inr (OutBigint (a - 10));
            quoteExactInput := quoteExactInput Sample.deadChain;
            quotePotentialSwap := quotePotentialSwap Sample.deadChain |}
         1000 Sample.cfg "V3->V2" (Sample.start None))
  = inr (Success "V3→V2" "V3->V2:WBNB->USDT->WBNB" 1000 1040).
Proof.
  rewrite (proj2 (evalCrossVersion_chains
             {| getAmountsOut := fun _ a _ =>
                  inr {| firstAmount := a; restAmounts := [a + 50] |};
                quoteExactInputSingle := fun _ _ _ _ a => inr (OutBigint (a - 10));
                quoteExactInput := quoteExactInput Sample.deadChain;
                quotePotentialSwap := quotePotentialSwap Sample.deadChain |}
             1000 Sample.cfg "V3->V2" (Sample.start None))
             (OutBigint 990) {| firstAmount := 990; restAmounts := [1040] |}
             ltac:(discriminate) eq_refl eq_refl).
  reflexivity.
Defined.

(** ** What a run appends *)

Lemma writtenText_app (ws1 ws2 : list Write) :
  writtenText (ws1 ++ ws2) = writtenText ws1 +:+ writtenText ws2.
Proof.
  induction ws1 as [|wr ws1 IH]; simpl; [reflexivity |].
  by rewrite IH, append_assoc.
Qed.

(** What one [appendCsvRow] does to the file and to its content. *)
Lemma appendCsvRow_content row w :
  exists w',
    appendCsvRow CSV_HEADERS row w = (inr tt, w') /\
    writes w' = writes w
                ++ match csvFile w with
                   | Some _ => []
                   | None => [WHeader headerLine]
                   end
                ++ [WRow (joinFields CSV_HEADERS row +:+ newline)] /\
    csvFile w'
    = Some (default "" (csvFile w)
            +:+ writtenText (match csvFile w with
                             | Some _ => []
                             | None => [WHeader headerLine]
                             end
                             ++ [WRow (joinFields CSV_HEADERS row +:+ newline)])).
Proof.
  unfold appendCsvRow, bind, existsSync, appendFileSync, ret.
  destruct (csvFile w) as [content|] eqn:Hf; simpl.
  - eexists. split; [reflexivity |]. simpl. rewrite Hf. simpl.
    split; [reflexivity |]. by rewrite append_empty_r.
  - eexists. split; [reflexivity |]. simpl. rewrite Hf. simpl.
    split; [by rewrite <- app_assoc |]. by rewrite append_empty_r.
Qed.

Section Logging.

Variables (chain : Chain) (rt : Runtime) (cfg : Config) (gasPriceWei : Z).
Variables (f0 : option string) (ws0 : list Write).

Let L : World -> Prop := Logged rt cfg gasPriceWei f0 ws0.

Lemma Logged_frame w w' :
  csvFile w' = csvFile w -> writes w' = writes w -> L w -> L w'.
Proof. unfold L, Logged. intros -> ->. done. Qed.

Lemma hoare_logged_untouched {A} (m : M A) :
  sinkUntouched m -> hoare L m (fun _ => L) L.
Proof.
  intros Hm w Hw. destruct (Hm w) as [Hf Hws].
  pose proof (Logged_frame w (snd (m w)) Hf Hws Hw) as H.
  by destruct (m w) as [[e|a] w1].
Qed.

Lemma appendCsvRow_logged row :
  ProbeWrite rt cfg gasPriceWei (WRow (joinFields CSV_HEADERS row +:+ newline)) ->
  hoare L (appendCsvRow CSV_HEADERS row) (fun _ => L) L.
Proof.
  intros Hrow w (new & Hws & Hall & Hfile).
  destruct (appendCsvRow_content row w) as (w' & -> & Hws' & Hfile').
  set (line := WRow (joinFields CSV_HEADERS row +:+ newline)) in *.
  destruct new as [|wr new].
  - rewrite app_nil_r in Hws. rewrite Hfile in Hws', Hfile'.
    exists (match f0 with Some _ => [] | None => [WHeader headerLine] end ++ [line]).
    split; [by rewrite Hws', Hws |]. split.
    + destruct f0; repeat constructor; assumption.
    + rewrite Hfile'. by destruct f0.
  - rewrite Hfile in Hws', Hfile'. simpl in Hws', Hfile'.
    exists ((wr :: new) ++ [line]).
    split; [by rewrite Hws', Hws, <- app_assoc |]. split.
    + apply Forall_app. split; [exact Hall | by repeat constructor].
    + rewrite Hfile'. simpl. f_equal.
      change (writeText wr +:+ writtenText new) with (writtenText (wr :: new)).
      change (writeText wr +:+ writtenText (new ++ [line]))
        with (writtenText ((wr :: new) ++ [line])).
      by rewrite writtenText_app, append_assoc.
Qed.

Lemma recordOutcome_logged b sz sizeIn r o batch :
  sz ∈ sizesWBNB cfg -> r ∈ probedRoutes -> outcomeOf r sizeIn o ->
  hoare L (recordOutcome rt b cfg gasPriceWei sz sizeIn o batch) (fun _ => L) L.
Proof.
  intros Hsz Hr [[error ->]|[out ->]]; simpl.
  - intros w Hw. unfold bind at 1. unfold nowIso at 1. cbv beta iota.
    pose proof (appendCsvRow_logged
                  (failureRow b (isoTime rt (clock w)) (routeTag r) sz error)
                  (PW_failure rt cfg gasPriceWei b (clock w) r sz error Hsz Hr)
                  (withClock (S (clock w)) w)
                  (Logged_frame w _ eq_refl eq_refl Hw)) as H.
    unfold bind. by destruct (appendCsvRow _ _ _) as [[e|u] w1].
  - destruct (score _ _ _ _ _ _ _ _) as [s|] eqn:Hs; [| by intros w Hw].
    intros w Hw. unfold bind at 1. unfold nowIso at 1. cbv beta iota.
    pose proof (appendCsvRow_logged
                  (successRow rt (isoTime rt (clock w)) s)
                  (PW_success rt cfg gasPriceWei (clock w) r sz sizeIn sizeIn out s
                     Hsz Hr Hs)
                  (withClock (S (clock w)) w)
                  (Logged_frame w _ eq_refl eq_refl Hw)) as H.
    unfold bind. by destruct (appendCsvRow _ _ _) as [[e|u] w1].
Qed.

(** What an evaluator returns, and that it leaves the file alone. *)
Lemma evalRoute_outcome size r w :
  exists o w',
    evalRoute chain size cfg r w = (inr o, w') /\
    outcomeOf r size o /\
    csvFile w' = csvFile w /\ writes w' = writes w.
Proof.
  destruct (evalRoute_sinkUntouched chain cfg size r w) as [Hf Hw].
  rewrite evalRoute_runLegs in *.
  destruct (runLegs chain (routeLegs cfg r) size w) as [[e|out] w1]; simpl in *.
  - eexists _, _. split; [reflexivity |]. split; [left; by eexists | done].
  - eexists _, _. split; [reflexivity |]. split; [right; by eexists | done].
Qed.

Lemma attempt_logged b sz sizeIn r batch :
  sz ∈ sizesWBNB cfg -> r ∈ probedRoutes ->
  hoare L (let! o := evalRoute chain sizeIn cfg r in
           recordOutcome rt b cfg gasPriceWei sz sizeIn o batch)
        (fun _ => L) L.
Proof.
  intros Hsz Hr w Hw. unfold bind.
  destruct (evalRoute_outcome sizeIn r w) as (o & w1 & -> & Ho & Hf & Hws).
  apply (recordOutcome_logged b sz sizeIn r o batch Hsz Hr Ho w1).
  by apply (Logged_frame w w1).
Qed.

Lemma probeSize_logged sz batch :
  sz ∈ sizesWBNB cfg ->
  hoare L (probeSize chain rt cfg gasPriceWei sz batch) (fun _ => L) L.
Proof.
  intros Hsz. unfold probeSize.
  destruct (parseUnits rt sz _) as [e|sizeIn]; [by intros w Hw |].
  assert (forall r, r ∈ probedRoutes -> forall b s,
            hoare L (let! o := evalRoute chain sizeIn cfg r in
                     recordOutcome rt b cfg gasPriceWei sz sizeIn o s)
                  (fun _ => L) L) as Hatt.
  { intros r Hr b s. by apply attempt_logged. }
  assert (forall {A} (a : A), hoare L (ret a) (fun _ => L) L) as Hret.
  { intros A a. apply hoare_ret. auto. }
  unfold probedRoutes in Hatt. simpl forEach.
  eapply hoare_bind.
  { eapply hoare_bind; [apply (Hatt (CrossVersion "V2->V3")); set_solver |].
    intros b1. cbv beta.
    eapply hoare_bind; [apply (Hatt (CrossVersion "V3->V2")); set_solver |].
    intros b2. apply Hret. }
  intros batch1. cbv beta.
  intros w Hw. unfold bind at 1.
  destruct (evalRoute_outcome sizeIn TriangleV2 w) as (o & w1 & Hrun & Ho & Hf & Hws).
  simpl in Hrun. rewrite Hrun.
  assert (L w1) as Hw1 by (by apply (Logged_frame w w1)).
  clear Hrun Hf Hws. revert w1 Hw1.
  change (hoare L
    (let! batch2 := recordOutcome rt TriangleBlock cfg gasPriceWei sz sizeIn o batch1 in
     let! s' := (let! r := evalRoute chain sizeIn cfg (TriangleWombat "A") in
                 recordOutcome rt WombatBlock cfg gasPriceWei sz sizeIn r batch2) in
     let! s'0 := (let! r := evalRoute chain sizeIn cfg (TriangleWombat "B") in
                  recordOutcome rt WombatBlock cfg gasPriceWei sz sizeIn r s') in
     ret s'0) (fun _ => L) L).
  eapply hoare_bind.
  { apply (recordOutcome_logged TriangleBlock sz sizeIn TriangleV2 o batch1 Hsz);
      [set_solver | exact Ho]. }
  intros batch2. cbv beta.
  eapply hoare_bind; [apply (Hatt (TriangleWombat "A")); set_solver |].
  intros b3. cbv beta.
  eapply hoare_bind; [apply (Hatt (TriangleWombat "B")); set_solver |].
  intros b4. apply Hret.
Qed.

Lemma hoare_forEach_in {A S} (I : World -> Prop) (l : list A) (body : A -> S -> M S) :
  (forall a s, a ∈ l -> hoare I (body a s) (fun _ => I) I) ->
  forall s, hoare I (forEach l body s) (fun _ => I) I.
Proof.
  induction l as [|a l IH]; intros Hbody s; simpl.
  - apply hoare_ret. auto.
  - eapply hoare_bind; [apply Hbody; set_solver |].
    intros s'. apply IH. intros a' s'' Ha'. apply Hbody. set_solver.
Qed.

Lemma cycle_logged :
  hoare L (cycle chain rt cfg gasPriceWei) (fun _ => L) L.
Proof.
  unfold cycle.
  eapply hoare_bind.
  { apply hoare_forEach_in. intros sz b Hsz. by apply probeSize_logged. }
  intros batch. cbv beta.
  eapply hoare_bind; [apply hoare_logged_untouched, nowIso_sinkUntouched |].
  intros ts. cbv beta.
  eapply hoare_bind.
  { apply hoare_logged_untouched.
    destruct (rank batch); apply consoleLog_sinkUntouched. }
  intros ?. apply hoare_ret. auto.
Qed.

Lemma pollLoop_logged n :
  hoare L (pollLoop chain rt cfg gasPriceWei n) (fun _ => L) L.
Proof.
  induction n as [|n IH]; simpl.
  - apply hoare_ret. auto.
  - eapply hoare_bind; [apply cycle_logged |]. intros ?. apply IH.
Qed.

End Logging.

Lemma Logged_start rt cfg gasPriceWei w :
  Logged rt cfg gasPriceWei (csvFile w) (writes w) w.
Proof. exists []. rewrite app_nil_r. repeat split. constructor. Qed.

(** Whatever a run of the poll loop does, it leaves a logged world. *)
Lemma pollLoop_leaves_logged chain rt cfg gasPriceWei n w :
  Logged rt cfg gasPriceWei (csvFile w) (writes w)
         (snd (pollLoop chain rt cfg gasPriceWei n w)).
Proof.
  pose proof (pollLoop_logged chain rt cfg gasPriceWei (csvFile w) (writes w) n w
                (Logged_start rt cfg gasPriceWei w)) as H.
  by destruct (pollLoop chain rt cfg gasPriceWei n w) as [[e|u] w1].
Qed.

Lemma commas_uint (d : Decimal.uint) : commas (NilEmpty.string_of_uint d) = O.
Proof. unfold commas. induction d; simpl; auto. Qed.

Lemma commas_uint0 (d : Decimal.uint) : commas (NilZero.string_of_uint d) = O.
Proof. destruct d; try apply commas_uint. reflexivity. Qed.

Lemma commas_bigintToString (z : Z) : commas (bigintToString z) = O.
Proof.
  unfold bigintToString. destruct (Z.to_int z) as [d|d]; simpl.
  - apply commas_uint0.
  - pose proof (commas_uint0 d) as H. unfold commas in *. simpl. exact H.
Qed.

Lemma successRow_line rt ts s :
  joinFields CSV_HEADERS (successRow rt ts s)
  = String.concat ","
      [ts; sRouteType s; sSize s; sLegs s; bigintToString (sIn s);
       bigintToString (sOut s); bigintToString (sPnl s);
       numberToString rt (sBps s); bigintToString (sGasWBNB s);
       bigintToString (sFlashFee s); bigintToString (sNetPnl s); ""].
Proof. reflexivity. Qed.

Lemma score_labels cfg gasPriceWei sz sizeIn routeType legs rIn rOut s :
  score cfg gasPriceWei sz sizeIn routeType legs rIn rOut = Some s ->
  sRouteType s = routeType /\ sSize s = sz /\ sLegs s = legs.
Proof.
  unfold score.
  destruct (gasCostInWBNB _ _); [| discriminate].
  destruct (flashloanFeeInWBNB _ _); [| discriminate].
  by intros [= <-].
Qed.

Lemma routeLabel_commas (r : Route) : r ∈ probedRoutes -> commas (routeLabel r) = O.
Proof.
  unfold probedRoutes. intros Hr.
  repeat (apply elem_of_cons in Hr as [->|Hr]; [reflexivity |]).
  by apply elem_of_nil in Hr.
Qed.

Lemma ProbeWrite_commas rt cfg gasPriceWei wr :
  plainRuntime rt ->
  Forall (fun sz => commas sz = O) (sizesWBNB cfg) ->
  ProbeWrite rt cfg gasPriceWei wr ->
  commas (writeText wr) = 11%nat.
Proof.
  intros [Hts Hnum] Hsizes Hwr. rewrite Forall_forall in Hsizes.
  destruct Hwr as [|b n r sz error Hsz Hr|n r sz sizeIn rIn rOut s Hsz Hr Hs]; simpl.
  - reflexivity.
  - unfold commas. rewrite countChar_app. fold (commas newline).
    fold (commas (joinFields CSV_HEADERS
                    (failureRow b (isoTime rt n) (routeTag r) sz error))).
    rewrite failureRow_line. unfold commas. rewrite !countChar_app.
    fold (commas (isoTime rt n)). fold (commas (routeTag r)). fold (commas sz).
    fold (commas (failureNote b error)).
    rewrite Hts, routeTag_commas, (Hsizes sz Hsz), failureNote_commas. reflexivity.
  - apply score_labels in Hs as (Hrt & Hsz' & Hlegs).
    unfold commas. rewrite countChar_app. fold (commas newline).
    fold (commas (joinFields CSV_HEADERS (successRow rt (isoTime rt n) s))).
    rewrite successRow_line, commas_concat. simpl map.
    rewrite Hrt, Hsz', Hlegs, Hts, Hnum, routeTag_commas, (Hsizes sz Hsz),
      (routeLabel_commas r Hr), !commas_bigintToString.
    reflexivity.
Qed.

(** X15. With a run time that prints no comma in timestamps and Numbers,
    and size labels without a comma, every text the poll loop hands to one
    append of the file - the header, the row of a failed attempt and the
    row of a scored attempt alike - holds exactly 11 separators. This
    counts separators per append, not per line of the file: the text of an
    append is one line only if the error message it quotes has no line
    break. *)
Theorem every_append_has_eleven_separators chain rt cfg gasPriceWei (n : nat) w0 :
  plainRuntime rt ->
  Forall (fun sz => commas sz = O) (sizesWBNB cfg) ->
  exists new,
    writes (snd (pollLoop chain rt cfg gasPriceWei n w0)) = writes w0 ++ new /\
    Forall (fun wr => commas (writeText wr) = 11%nat) new.
Proof.
  intros Hrt Hsizes.
  destruct (pollLoop_leaves_logged chain rt cfg gasPriceWei n w0)
    as (new & Hws & Hall & _).
  exists new. split; [exact Hws |].
  eapply Forall_impl; [exact Hall |].
  intros wr Hwr. by apply (ProbeWrite_commas rt cfg gasPriceWei).
Qed.

Lemma sample_plain_runtime : plainRuntime Sample.rt.
Proof.
  split.
  - intros n. simpl. unfold commas. simpl.
    apply (commas_uint0 (Nat.to_uint n)).
  - intros [z|[|]|]; simpl; try reflexivity.
    apply (commas_bigintToString z).
Defined.

Lemma every_append_has_eleven_separators_witness :
  exists new,
    writes (snd (pollLoop Sample.chain Sample.rt Sample.cfg 1 2 (Sample.start None)))
    = new /\
    Forall (fun wr => commas (writeText wr) = 11%nat) new.
Proof.
  destruct (every_append_has_eleven_separators Sample.chain Sample.rt Sample.cfg 1 2
              (Sample.start None) sample_plain_runtime) as (new & Hws & Hall).
  { simpl. by repeat constructor. }
  exists new. split; [exact Hws | exact Hall].
Defined.

(** X16. The sink only grows: whatever the poll loop does, what it has
    appended is all that was added to the file, after what the file held
    at the start; content that was there is neither overwritten nor
    truncated, and the file stays missing only while nothing is written. *)
Theorem sink_is_append_only chain rt cfg gasPriceWei (n : nat) w0 :
  exists new,
    writes (snd (pollLoop chain rt cfg gasPriceWei n w0)) = writes w0 ++ new /\
    csvFile (snd (pollLoop chain rt cfg gasPriceWei n w0))
    = match new with
      | [] => csvFile w0
      | _ :: _ => Some (default "" (csvFile w0) +:+ writtenText new)
      end /\
    (forall content, csvFile w0 = Some content ->
       csvFile (snd (pollLoop chain rt cfg gasPriceWei n w0))
       = Some (content +:+ writtenText new)).
Proof.
  destruct (pollLoop_leaves_logged chain rt cfg gasPriceWei n w0)
    as (new & Hws & _ & Hfile).
  exists new. split; [exact Hws |]. split; [exact Hfile |].
  intros content Hc. rewrite Hfile, Hc.
  destruct new; simpl; [by rewrite append_empty_r | reflexivity].
Qed.

Lemma sink_is_append_only_witness :
  exists suffix,
    csvFile (snd (pollLoop Sample.deadChain Sample.rt Sample.cfg 1 1
                    (Sample.start (Some "kept,"))))
    = Some ("kept," +:+ suffix).
Proof.
  destruct (sink_is_append_only Sample.deadChain Sample.rt Sample.cfg 1 1
              (Sample.start (Some "kept,"))) as (new & _ & _ & Hkeep).
  exists (writtenText new). apply Hkeep. reflexivity.
Defined.

(** ** Cycles that find nothing, cycles that stop *)

Lemma returns_ret {A} (a : A) : returns a (ret a).
Proof. intros w. by exists w. Qed.

Lemma returns_bind {A B} (a : A) (b : B) (m : M A) (k : A -> M B) :
  returns a m -> returns b (k a) -> returns b (bind m k).
Proof.
  intros Hm Hk w. unfold bind. destruct (Hm w) as (w1 & ->). apply Hk.
Qed.

Lemma returns_forEach {A S} (l : list A) (body : A -> S -> M S) (s : S) :
  Forall (fun a => returns s (body a s)) l -> returns s (forEach l body s).
Proof.
  induction 1 as [|a l Ha Hl IH]; simpl; [apply returns_ret |].
  by apply (returns_bind s).
Qed.

Section Quiet.

Context {X : Type} (proj : World -> X).
Hypothesis proj_trace : forall t w, proj (withTrace t w) = proj w.
Hypothesis proj_clock : forall c w, proj (withClock c w) = proj w.
Hypothesis proj_csv : forall f ws w, proj (withCsv f ws w) = proj w.

Variables (chain : Chain) (rt : Runtime) (cfg : Config) (gasPriceWei : Z).

Lemma keeps_nowIso : keeps proj (nowIso rt).
Proof. intros w. apply proj_clock. Qed.

Lemma keeps_appendCsvRow headers row : keeps proj (appendCsvRow headers row).
Proof.
  intros w. unfold appendCsvRow, bind, existsSync, appendFileSync, ret.
  destruct (csvFile w); simpl; by rewrite ?proj_csv.
Qed.

Lemma keeps_recordOutcome b sz sizeIn o batch :
  keeps proj (recordOutcome rt b cfg gasPriceWei sz sizeIn o batch).
Proof.
  destruct o as [routeType legs rIn rOut|error routeType]; simpl.
  - destruct (score _ _ _ _ _ _ _ _); [| apply keeps_throw].
    apply keeps_bind; [apply keeps_nowIso | intros ts].
    apply keeps_bind; [apply keeps_appendCsvRow | intros ?; apply keeps_ret].
  - apply keeps_bind; [apply keeps_nowIso | intros ts].
    apply keeps_bind; [apply keeps_appendCsvRow | intros ?; apply keeps_ret].
Qed.

Lemma keeps_probeSize sz batch :
  keeps proj (probeSize chain rt cfg gasPriceWei sz batch).
Proof.
  unfold probeSize. destruct (parseUnits rt sz _); [apply keeps_throw |].
  apply keeps_bind.
  { apply keeps_forEach. intros dir b. apply keeps_bind.
    - apply (keeps_evalRoute proj proj_trace chain _ cfg (CrossVersion dir)).
    - intros o. apply keeps_recordOutcome. }
  intros batch1. apply keeps_bind.
  { apply (keeps_evalRoute proj proj_trace chain _ cfg TriangleV2). }
  intros r2. apply keeps_bind; [apply keeps_recordOutcome | intros batch2].
  apply keeps_forEach. intros variant b. apply keeps_bind.
  - apply (keeps_evalRoute proj proj_trace chain _ cfg (TriangleWombat variant)).
  - intros o. apply keeps_recordOutcome.
Qed.

End Quiet.

Lemma forEach_app {A S} (l1 l2 : list A) (body : A -> S -> M S) s w :
  forEach (l1 ++ l2) body s w
  = (let! s' := forEach l1 body s in forEach l2 body s') w.
Proof.
  revert s w. induction l1 as [|a l1 IH]; intros s w; simpl; [reflexivity |].
  unfold bind. destruct (body a s w) as [[e|s'] w1]; [reflexivity |].
  rewrite IH. reflexivity.
Qed.

Section NoAnswers.

Variables (chain : Chain) (rt : Runtime) (cfg : Config) (gasPriceWei : Z).
Hypothesis dead : allFail chain.

Lemma quoteLeg_allFail leg amt w :
  exists e w', quoteLeg chain leg amt w = (inl e, w').
Proof.
  destruct dead as (H2 & H3a & H3b & Hw).
  destruct leg as [path|tokenIn tokenOut fee|fromToken toToken]; simpl.
  - unfold quoteV2, tryCatch, bind, rpc, ret, throw. simpl.
    destruct (H2 (length (trace w)) amt path) as [e ->]. by eexists _, _.
  - unfold quoteV3Single, tryCatch, bind, rpc, ret, throw. simpl.
    destruct (H3a (length (trace w)) tokenIn tokenOut fee amt) as [e ->]. simpl.
    destruct (H3b (length (trace w ++ [QuoteExactInputSingle tokenIn tokenOut fee amt]))
                tokenIn fee tokenOut amt) as [e2 ->].
    by eexists _, _.
  - unfold quoteWombat, tryCatch, bind, rpc, ret, throw. simpl.
    destruct (Hw (length (trace w)) fromToken toToken amt) as [e ->].
    by eexists _, _.
Qed.

Lemma evalRoute_allFail size r w :
  exists error w',
    evalRoute chain size cfg r w = (inr (Failure error (routeTag r)), w').
Proof.
  rewrite evalRoute_runLegs.
  assert (exists l ls, routeLegs cfg r = l :: ls) as (l & ls & ->).
  { destruct r as [dir| |variant]; simpl.
    - destruct (String.eqb dir "V2->V3"); by eexists _, _.
    - by eexists _, _.
    - destruct (String.eqb variant "A"); by eexists _, _. }
  simpl. unfold bind.
  destruct (quoteLeg_allFail l size w) as (e & w1 & ->). by eexists _, _.
Qed.

Lemma recordFailure_returns b sz sizeIn error tag batch :
  returns batch (recordOutcome rt b cfg gasPriceWei sz sizeIn (Failure error tag) batch).
Proof.
  intros w. simpl. unfold bind, nowIso. simpl.
  destruct (appendCsvRow_noThrow CSV_HEADERS
              (failureRow b (isoTime rt (clock w)) tag sz error)
              (withClock (S (clock w)) w)) as ([] & w2 & ->).
  by exists w2.
Qed.

Lemma attempt_allFail b sz sizeIn r batch :
  returns batch (let! o := evalRoute chain sizeIn cfg r in
                 recordOutcome rt b cfg gasPriceWei sz sizeIn o batch).
Proof.
  intros w. unfold bind at 1.
  destruct (evalRoute_allFail sizeIn r w) as (error & w1 & ->).
  apply recordFailure_returns.
Qed.

Lemma probeSize_allFail sz batch :
  (exists n, parseUnits rt sz (dec (WBNB (cfgTokens cfg))) = inr n) ->
  returns batch (probeSize chain rt cfg gasPriceWei sz batch).
Proof.
  intros [sizeIn Hparse]. unfold probeSize. rewrite Hparse.
  apply (returns_bind batch).
  { apply returns_forEach. repeat constructor;
      apply (attempt_allFail CrossBlock sz sizeIn (CrossVersion _)). }
  intros w. unfold bind at 1.
  destruct (evalRoute_allFail sizeIn TriangleV2 w) as (error & w1 & Hr).
  simpl in Hr. rewrite Hr.
  apply (returns_bind batch batch _ _ (recordFailure_returns _ _ _ _ _ _)).
  apply returns_forEach. repeat constructor;
    apply (attempt_allFail WombatBlock sz sizeIn (TriangleWombat _)).
Qed.

Lemma sizes_allFail :
  sizesParse rt cfg ->
  returns [] (forEach (sizesWBNB cfg) (probeSize chain rt cfg gasPriceWei) []).
Proof.
  intros Hsizes. apply returns_forEach.
  eapply Forall_impl; [exact Hsizes |]. simpl. intros sz Hsz.
  by apply probeSize_allFail.
Qed.

End NoAnswers.

(** X17. When no call to the chain is answered and the trade sizes parse,
    a cycle runs to its end whatever the gas estimates are: its ranked list
    is empty, it prints the one report "no successful quotes", and it has
    appended a row for each of its 5 attempts per trade size. *)
Theorem cycle_without_quotes chain rt cfg gasPriceWei w :
  allFail chain -> sizesParse rt cfg ->
  exists w',
    cycle chain rt cfg gasPriceWei w = (inr [], w') /\
    console w' = console w ++ [NoSuccessfulQuotes] /\
    rowWrites w' = (rowWrites w + 5 * length (sizesWBNB cfg))%nat.
Proof.
  intros Hdead Hsizes.
  pose proof (cycle_appended chain rt cfg gasPriceWei (csvFile w) (writes w) 0 w
                (Appended_start _ _ _ eq_refl eq_refl)) as Hrows.
  assert (exists w', cycle chain rt cfg gasPriceWei w = (inr [], w') /\
                     console w' = console w ++ [NoSuccessfulQuotes])
    as (w' & Hrun & Hcon).
  { unfold cycle, bind.
    pose proof (keeps_forEach console (sizesWBNB cfg)
                  (probeSize chain rt cfg gasPriceWei)
                  (fun sz b => keeps_probeSize console (fun _ _ => eq_refl)
                                 (fun _ _ => eq_refl) (fun _ _ _ => eq_refl)
                                 chain rt cfg gasPriceWei sz b) [] w) as Hkeep.
    destruct (sizes_allFail chain rt cfg gasPriceWei Hdead Hsizes w) as (w1 & Hb).
    rewrite Hb in *. simpl in *. eexists. split; [reflexivity |].
    simpl. by rewrite Hkeep. }
  exists w'. split; [exact Hrun |]. split; [exact Hcon |].
  rewrite Hrun in Hrows. cbv beta iota in Hrows. rewrite Nat.add_0_l in Hrows.
  by pose proof (Appended_counts _ _ _ _ Hrows) as [_ ->].
Qed.

Lemma sample_dead_chain : allFail Sample.deadChain.
Proof. repeat split; intros; by eexists. Defined.

Lemma cycle_without_quotes_witness :
  exists w',
    cycle Sample.deadChain Sample.rt Sample.cfg 1 (Sample.start None) = (inr [], w') /\
    console w' = [NoSuccessfulQuotes] /\
    rowWrites w' = 5%nat.
Proof.
  destruct (cycle_without_quotes Sample.deadChain Sample.rt Sample.cfg 1
              (Sample.start None) sample_dead_chain sample_sizes_parse)
    as (w' & Hrun & Hcon & Hrows).
  exists w'. repeat split; assumption.
Defined.

(** X18. A trade size that [parseUnits] rejects stops the cycle with the
    error of [parseUnits]: the sizes before it have been probed and have
    their five rows each, nothing is appended for the rejected size or for
    the sizes after it, and no report is printed. (Gas estimates of
    magnitude at most 2^50, so that scoring the earlier sizes does not
    throw.) *)
Theorem rejected_size_stops_cycle chain rt cfg gasPriceWei w before bad after e :
  sizesWBNB cfg = before ++ bad :: after ->
  Forall (fun sz => exists n, parseUnits rt sz (dec (WBNB (cfgTokens cfg))) = inr n)
         before ->
  parseUnits rt bad (dec (WBNB (cfgTokens cfg))) = inl e ->
  smallGasEstimates cfg ->
  exists w',
    cycle chain rt cfg gasPriceWei w = (inl e, w') /\
    rowWrites w' = (rowWrites w + 5 * length before)%nat /\
    console w' = console w.
Proof.
  intros Hsizes Hbefore Hbad Hgas.
  assert (noThrow (forEach before (probeSize chain rt cfg gasPriceWei) [])) as Hrun.
  { apply noThrow_forEach. eapply Forall_impl; [exact Hbefore |].
    simpl. intros sz Hsz b. by apply probeSize_noThrow. }
  destruct (Hrun w) as (batch & w1 & Hpre).
  pose proof (hoare_forEach (Appended (csvFile w) (writes w))
                (fun w' => exists k, Appended (csvFile w) (writes w) k w') 5 before
                (probeSize chain rt cfg gasPriceWei)
                (fun sz b k => probeSize_appended chain rt cfg gasPriceWei
                                 (csvFile w) (writes w) sz b k)
                [] 0%nat w (Appended_start _ _ _ eq_refl eq_refl)) as Hrows.
  rewrite Hpre in Hrows. cbv beta iota in Hrows. rewrite Nat.add_0_l in Hrows.
  pose proof (Appended_counts _ _ _ _ Hrows) as [_ Hcount].
  pose proof (keeps_forEach console before (probeSize chain rt cfg gasPriceWei)
                (fun sz b => keeps_probeSize console (fun _ _ => eq_refl)
                               (fun _ _ => eq_refl) (fun _ _ _ => eq_refl)
                               chain rt cfg gasPriceWei sz b) [] w) as Hkeep.
  rewrite Hpre in Hkeep. simpl in Hkeep.
  exists w1. split; [| split; [exact Hcount | exact Hkeep]].
  unfold cycle. unfold bind at 1. rewrite Hsizes, forEach_app.
  unfold bind at 1. rewrite Hpre. simpl forEach. unfold bind at 1.
  unfold probeSize at 1. rewrite Hbad. reflexivity.
Qed.

Lemma rejected_size_stops_cycle_witness :
  exists w',
    cycle Sample.deadChain Sample.rt
      {| gasEstimates := gasEstimates Sample.cfg;
         flashloanFeeBps := 10;
         cfgTokens := cfgTokens Sample.cfg;
         v3FeeTier_USDT_WBNB := 500;
         v3FeeTier_WBNB_USDT := 500;
         cfgSizesWBNB := Some ["0.000000000000001"; "1,5"; "0.000000000000001"] |}
      1 (Sample.start None)
    = (inl (mkError "invalid FixedNumber string value"), w') /\
    rowWrites w' = 5%nat /\
    console w' = [].
Proof.
  destruct (rejected_size_stops_cycle Sample.deadChain Sample.rt
              {| gasEstimates := gasEstimates Sample.cfg;
                 flashloanFeeBps := 10;
                 cfgTokens := cfgTokens Sample.cfg;
                 v3FeeTier_USDT_WBNB := 500;
                 v3FeeTier_WBNB_USDT := 500;
                 cfgSizesWBNB :=
                   Some ["0.000000000000001"; "1,5"; "0.000000000000001"] |}
              1 (Sample.start None)
              ["0.000000000000001"] "1,5" ["0.000000000000001"]
              (mkError "invalid FixedNumber string value"))
    as (w' & Hrun & Hrows & Hcon).
  - reflexivity.
  - constructor; [| constructor]. exists 1000. reflexivity.
  - reflexivity.
  - exact sample_small_gas.
  - exists w'. repeat split; assumption.
Defined.

(** ** Reports and runs *)

Lemma cycle_console chain rt cfg gasPriceWei w ranked w' :
  cycle chain rt cfg gasPriceWei w = (inr ranked, w') ->
  console w' = console w
               ++ [match ranked with
                   | [] => NoSuccessfulQuotes
                   | _ :: _ => Top10 ranked
                   end].
Proof.
  unfold cycle, bind.
  pose proof (keeps_forEach console (sizesWBNB cfg)
                (probeSize chain rt cfg gasPriceWei)
                (fun sz b => keeps_probeSize console (fun _ _ => eq_refl)
                               (fun _ _ => eq_refl) (fun _ _ _ => eq_refl)
                               chain rt cfg gasPriceWei sz b) [] w) as Hkeep.
  destruct (forEach _ _ _ w) as [[e|batch] w1]; [intros [=] |].
  simpl in *. destruct (rank batch) as [|s ranked']; simpl;
    intros [= <- <-]; simpl; by rewrite Hkeep.
Qed.

(** X19. A cycle that runs to its end prints exactly one report: the
    ranked list when it is not empty, "no successful quotes" otherwise.
    After n cycles that ran to their end the console holds n more reports
    and the sink n * 5 more rows per trade size. *)
Theorem completed_cycles_report chain rt cfg gasPriceWei :
  (forall w ranked w',
     cycle chain rt cfg gasPriceWei w = (inr ranked, w') ->
     console w' = console w
                  ++ [match ranked with
                      | [] => NoSuccessfulQuotes
                      | _ :: _ => Top10 ranked
                      end]) /\
  (forall n w u w',
     pollLoop chain rt cfg gasPriceWei n w = (inr u, w') ->
     length (console w') = (length (console w) + n)%nat /\
     rowWrites w' = (rowWrites w + n * (5 * length (sizesWBNB cfg)))%nat).
Proof.
  split; [apply cycle_console |].
  intros n w u w' Hrun. split.
  - revert w Hrun. induction n as [|n IH]; intros w; simpl.
    + intros [= _ <-]. lia.
    + unfold bind.
      destruct (cycle chain rt cfg gasPriceWei w) as [[e|ranked] w1] eqn:Hc;
        [intros [=] |].
      intros Hrest. rewrite (IH w1 Hrest), (cycle_console _ _ _ _ _ _ _ Hc).
      rewrite length_app. simpl. lia.
  - pose proof (pollLoop_appended chain rt cfg gasPriceWei (csvFile w) (writes w)
                  n 0 w (Appended_start _ _ _ eq_refl eq_refl)) as H.
    rewrite Hrun in H. cbv beta iota in H. rewrite Nat.add_0_l in H.
    by pose proof (Appended_counts _ _ _ _ H) as [_ ->].
Qed.

Lemma completed_cycles_report_witness :
  length (console (snd (pollLoop Sample.chain Sample.rt Sample.cfg 1 2
                          (Sample.start None)))) = 2%nat /\
  rowWrites (snd (pollLoop Sample.chain Sample.rt Sample.cfg 1 2
                    (Sample.start None))) = 10%nat.
Proof.
  apply (proj2 (completed_cycles_report Sample.chain Sample.rt Sample.cfg 1)
           2%nat (Sample.start None) tt
           (snd (pollLoop Sample.chain Sample.rt Sample.cfg 1 2 (Sample.start None)))).
  vm_compute. reflexivity.
Defined.

(** X20. The V2 and Wombat adapters issue exactly one call. An answer
    gives the last amount of the V2 array, or the first component of the
    Wombat pair; a failure is rethrown under the adapter's prefix with the
    reason of the underlying error when it has a non-empty one, and with
    its message when the reason is missing or empty. *)
Theorem adapters_wrap_one_call chain w :
  (forall path amountIn,
     snd (quoteV2 chain path amountIn w)
     = withTrace (trace w ++ [GetAmountsOut amountIn path]) w /\
     (forall a, getAmountsOut chain (length (trace w)) amountIn path = inr a ->
        fst (quoteV2 chain path amountIn w)
        = inr (List.last (restAmounts a) (firstAmount a))) /\
     (forall e, getAmountsOut chain (length (trace w)) amountIn path = inl e ->
        fst (quoteV2 chain path amountIn w)
        = inl (mkError ("V2 quote failed: "
                        +:+ match reason e with
                            | Some r => if String.eqb r "" then message e else r
                            | None => message e
                            end)))) /\
  (forall fromToken toToken amountIn,
     snd (quoteWombat chain fromToken toToken amountIn w)
     = withTrace (trace w ++ [QuotePotentialSwap fromToken toToken amountIn]) w /\
     (forall out haircut,
        quotePotentialSwap chain (length (trace w)) fromToken toToken amountIn
          = inr (out, haircut) ->
        fst (quoteWombat chain fromToken toToken amountIn w) = inr out) /\
     (forall e,
        quotePotentialSwap chain (length (trace w)) fromToken toToken amountIn = inl e ->
        fst (quoteWombat chain fromToken toToken amountIn w)
        = inl (mkError ("Wombat quote failed: "
                        +:+ match reason e with
                            | Some r => if String.eqb r "" then message e else r
                            | None => message e
                            end)))).
Proof.
  split.
  - intros path amountIn.
    unfold quoteV2, tryCatch, bind, rpc, ret, throw. simpl.
    destruct (getAmountsOut chain _ _ _) as [e|a]; simpl.
    + repeat split; [intros ? [=] | by intros ? [= <-]].
    + repeat split; [by intros ? [= <-] | intros ? [=]].
  - intros fromToken toToken amountIn.
    unfold quoteWombat, tryCatch, bind, rpc, ret, throw. simpl.
    destruct (quotePotentialSwap chain _ _ _ _) as [e|[out haircut]]; simpl.
    + repeat split; [intros ? ? [=] | by intros ? [= <-]].
    + repeat split; [by intros ? ? [= <- _] | intros ? [=]].
Qed.

Lemma adapters_wrap_one_call_witness :
  fst (quoteV2
         {| getAmountsOut := fun _ _ _ => inl {| reason := Some ""; message := "timeout" |};
            quoteExactInputSingle := quoteExactInputSingle Sample.deadChain;
            quoteExactInput := quoteExactInput Sample.deadChain;
            quotePotentialSwap := quotePotentialSwap Sample.deadChain |}
         ["0xW"; "0xT"] 1000 (Sample.start None))
  = inl (mkError "V2 quote failed: timeout").
Proof.
  destruct (adapters_wrap_one_call
              {| getAmountsOut := fun _ _ _ =>
                   inl {| reason := Some ""; message := "timeout" |};
                 quoteExactInputSingle := quoteExactInputSingle Sample.deadChain;
                 quoteExactInput := quoteExactInput Sample.deadChain;
                 quotePotentialSwap := quotePotentialSwap Sample.deadChain |}
              (Sample.start None)) as [Hv2 _].
  destruct (Hv2 ["0xW"; "0xT"] 1000) as (_ & _ & Herr).
  rewrite (Herr _ eq_refl). reflexivity.
Defined.
